(** * The floating-IP scheduler plugin (pkg/ipam/schedulerplugin)

    A shallow embedding of [floatingip_plugin.go].  The plugin is a Go
    struct mutated by its methods; here every method is a function in a
    state monad over that struct.  Calls that leave the plugin (into the
    IPAM, into the orchestrator client) are appended to a call log kept
    beside the struct, so that statements such as "no allocation is
    performed" can be written down. *)

From stdpp Require Import base option list gmap strings pretty.
From Stdlib Require Import ZArith Ascii.

Open Scope string_scope.

(** ** Go values *)

(** [error]: the values the plugin builds with [errors.New] and
    [fmt.Errorf] carry only a message; errors of the orchestrator API
    carry a status reason that [k8serrs.IsServerTimeout] inspects. *)
Inductive error :=
| errorString (msg : string)
| StatusError (reason : string) (msg : string).

Definition Error (e : error) : string :=
  match e with
  | errorString msg => msg
  | StatusError _ msg => msg
  end.

(** A Go [(T, error)] return whose value is only meaningful when the
    error is nil. *)
Inductive result (A : Type) :=
| Ok (a : A)
| Err (e : error).
Arguments Ok {A} a.
Arguments Err {A} e.

(** [k8serrs.IsServerTimeout(err)]; a nil error is not a timeout. *)
Definition IsServerTimeout (err : option error) : bool :=
  match err with
  | Some (StatusError reason _) => String.eqb reason "ServerTimeout"
  | _ => false
  end.

(** [wait.ErrWaitTimeout] *)
Definition ErrWaitTimeout : error :=
  errorString "timed out waiting for the condition".

(** ** Orchestrator objects (the fields the plugin reads) *)

(** A Go [map[string]string] that may be nil. *)
Abbreviation labelMap := (option (gmap string string)).

(** Reading a Go map: a nil map has no keys. *)
Definition map_get (m : labelMap) (k : string) : option string :=
  m ≫= (λ g, g !! k).

(** [m[k]] with Go's zero value for a missing key. *)
Definition map_index (m : labelMap) (k : string) : string :=
  default "" (map_get m k).

Record NodeAddress := {
  addr_Type : string;
  addr_Address : string;
}.

Record Node := {
  node_Name : string;
  node_Labels : labelMap;
  node_Addresses : list NodeAddress;
}.

Record Pod := {
  pod_Name : string;
  pod_Namespace : string;
  pod_Labels : labelMap;
  pod_Annotations : labelMap;
  pod_Phase : string;
  pod_Reason : string;
}.

(** [gaiav1.TApp]: only [Spec.Statuses], instance id to instance status. *)
Record TApp := {
  tapp_Statuses : gmap string string;
}.

Record ConfigMap := {
  cm_Data : gmap string string;
}.

(** [schedulerapi.ExtenderBindingArgs] *)
Record ExtenderBindingArgs := {
  PodName : string;
  PodNamespace : string;
  PodUID : string;
  BindNode : string;
}.

(** [schedulerapi.FailedNodesMap] is a [map[string]string]. *)
Abbreviation FailedNodesMap := (gmap string string).

Definition NodeInternalIP : string := "InternalIP".
Definition PodFailed : string := "Failed".
Definition ANNOTATION_FLOATINGIP : string := "floatingip".

(** ** Label selectors (k8s.io labels)

    [labels.SelectorFromSet] turns a set of labels into one equality
    requirement per label; [Matches] holds when every requirement finds
    its key with its value. *)
Definition Selector := list (string * string).

Definition SelectorFromSet (ls : gmap string string) : Selector :=
  map_to_list ls.

Definition Matches (sel : Selector) (ls : labelMap) : bool :=
  forallb (λ r, bool_decide (map_get ls r.1 = Some r.2)) sel.

(** ** Durations, in nanoseconds as [time.Duration] *)
Definition Millisecond : Z := 1000000.
Definition Second : Z := 1000 * Millisecond.
Definition Minute : Z := 60 * Second.

(** ** What the plugin imports

    The packages [net], [encoding/json], [floatingip] and the helpers
    [keyInDB] and [fmtKey] of this package are outside the embedded
    file.  Their types and functions are parameters of the development. *)
Class Lib := {
  IP : Type;
  IPNet : Type;
  IPInfo : Type;
  FloatingIP : Type;
  DBConfig : Type;
  (** [net.ParseIP]: nil when the text is not an address *)
  ParseIP : string → option IP;
  (** the [String] method of [net.IPNet] *)
  IPNet_String : IPNet → string;
  (** [ipInfo.IP.String()] *)
  IPInfo_IP_String : IPInfo → string;
  (** [json.Marshal] of an [*IPInfo] *)
  json_Marshal_IPInfo : IPInfo → result string;
  (** [json.Marshal] of a [runtime.Unstructured] holding only annotations *)
  json_Marshal_annotations : gmap string string → result string;
  (** [json.Unmarshal] into [[]*floatingip.FloatingIP] *)
  json_Unmarshal_FloatingIPs : string → result (list FloatingIP);
  (** owner key of a pod, and of a pod name and namespace *)
  keyInDB : Pod → string;
  fmtKey : string → string → string;
  (** [gaiav1.TAppInstanceKey], the instance-index label *)
  TAppInstanceKey : string;
  (** how many ticks the poller of package [wait] delivers for an
      interval and a timeout; it drops a tick when the consumer is busy,
      so the number is the clock's to give *)
  poller_ticks : Z → Z → nat;
}.

(** [floatingip.IPAM], the interface the plugin allocates through.  The
    store it fronts has type [db]; queries read it, [ConfigurePool],
    [AllocateInSubnet] and [Release] may change it.  [openIPAM] stands
    for [database.NewDBRecorder(c)], [db.Run()] and [floatingip.NewIPAM]. *)
Class IPAM `{Lib} (db : Type) := {
  openIPAM : option DBConfig → result db;
  ConfigurePool : list FloatingIP → db → option error * db;
  RoutableSubnet : IP → db → option IPNet;
  QueryRoutableSubnetByKey : string → db → result (list string);
  AllocateInSubnet : string → option IPNet → db → result IP * db;
  QueryFirst : string → db → result (option IPInfo);
  Release : list string → db → option error * db;
}.

(** The orchestrator behind [PluginFactoryArgs]: [Client] and
    [TAppLister].  Its state [K] changes under the plugin's feet, so
    every call returns the next state with its answer. *)
Class Orchestrator (K : Type) := {
  ConfigMaps_Get : string → string → K → result ConfigMap * K;
  Nodes_Get : string → K → result Node * K;
  Pods_Patch : string → string → string → K → option error * K;
  GetPodTApps : Pod → K → result (list TApp) * K;
}.

(** Calls that leave the plugin, and goroutines it starts. *)
Inductive event `{Lib} :=
| EvConfigurePool (defs : list FloatingIP)
| EvRoutableSubnet (ip : IP)
| EvQueryRoutableSubnetByKey (key : string)
| EvAllocateInSubnet (key : string) (subnet : option IPNet)
| EvQueryFirst (key : string)
| EvRelease (keys : list string)
| EvConfigMapsGet (namespace name : string)
| EvNodesGet (name : string)
| EvPodsPatch (namespace name data : string)
| EvGetPodTApps (pod : Pod)
| EvGo (task : string).

Record Conf `{Lib} := {
  FloatingIPs : list FloatingIP;
  conf_DBConfig : option DBConfig;
  ResyncInterval : N;
  ConfigMapName : string;
  ConfigMapNamespace : string;
}.

(** [FloatingIPPlugin].  The two mutexes guard sections that the
    embedding runs as one step each; [unreleased] is the buffered
    channel, oldest pod first; [calls] is the call log. *)
Record FloatingIPPlugin `{Lib} (db K : Type) := {
  objectSelector : Selector;
  nodeSelector : Selector;
  fipInvariantSeletor : Selector;
  ipam : db;
  nodeSubnet : gmap string IPNet;
  Client : K;
  lastFIPConf : string;
  conf : Conf;
  unreleased : list Pod;
  calls : list event;
}.
Arguments objectSelector {_ db K} _.
Arguments nodeSelector {_ db K} _.
Arguments fipInvariantSeletor {_ db K} _.
Arguments ipam {_ db K} _.
Arguments nodeSubnet {_ db K} _.
Arguments Client {_ db K} _.
Arguments lastFIPConf {_ db K} _.
Arguments conf {_ db K} _.
Arguments unreleased {_ db K} _.
Arguments calls {_ db K} _.

(** Capacity of the [unreleased] channel: [make(chan *v1.Pod, 10)]. *)
Definition unreleased_cap : nat := 10.

(** ** The monad

    A method either returns a value, panics, or has not returned (it is
    blocked in an unbounded poll that the model ran out of steps for, or
    on a send to the full channel).  The plugin state is threaded
    through in every case: Go does not undo writes. *)
Inductive outcome (A : Type) :=
| Val (a : A)
| Panic (msg : string)
| Blocked.
Arguments Val {A} a.
Arguments Panic {A} msg.
Arguments Blocked {A}.

(** [strings.ToLower], on the ASCII letters. *)
Definition lower_ascii (c : Ascii.ascii) : Ascii.ascii :=
  let n := Ascii.nat_of_ascii c in
  if Nat.leb 65 n && Nat.leb n 90 then Ascii.ascii_of_nat (n + 32) else c.

Fixpoint ToLower (s : string) : string :=
  match s with
  | EmptyString => EmptyString
  | String c rest => String (lower_ascii c) (ToLower rest)
  end.

(** Modelled from the spec: the constant [gaiav1.INSTANCE_KILLED] is
    declared outside the embedded files; the comment in
    [tappInstanceKilled] gives its two spellings, "killed" and "Killed",
    and the spec compares with [killed] ignoring case. *)
Definition INSTANCE_KILLED : string := "Killed".

(** [tappInstanceKilled] *)
Definition tappInstanceKilled (status : string) : bool :=
  String.eqb (ToLower status) (ToLower INSTANCE_KILLED).

Section Plugin.
Context `{L : Lib} {db K : Type} `{!IPAM db} `{!Orchestrator K}.

Abbreviation plugin := (FloatingIPPlugin db K).

Definition M (A : Type) : Type := plugin → outcome A * plugin.

Definition ret {A} (a : A) : M A := λ p, (Val a, p).

Definition bind {A B} (m : M A) (k : A → M B) : M B :=
  λ p, match m p with
       | (Val a, p') => k a p'
       | (Panic msg, p') => (Panic msg, p')
       | (Blocked, p') => (Blocked, p')
       end.

Definition panic {A} (msg : string) : M A := λ p, (Panic msg, p).

Notation "x <- c ;; k" := (bind c (λ x, k))
  (at level 100, c at next level, right associativity).
Notation "c ;;; k" := (bind c (λ _, k))
  (at level 100, right associativity).

(** Field updates. *)
Definition with_ipam (d : db) (p : plugin) : plugin :=
  {| objectSelector := objectSelector p; nodeSelector := nodeSelector p;
     fipInvariantSeletor := fipInvariantSeletor p; ipam := d;
     nodeSubnet := nodeSubnet p; Client := Client p;
     lastFIPConf := lastFIPConf p; conf := conf p;
     unreleased := unreleased p; calls := calls p |}.

Definition with_Client (k : K) (p : plugin) : plugin :=
  {| objectSelector := objectSelector p; nodeSelector := nodeSelector p;
     fipInvariantSeletor := fipInvariantSeletor p; ipam := ipam p;
     nodeSubnet := nodeSubnet p; Client := k;
     lastFIPConf := lastFIPConf p; conf := conf p;
     unreleased := unreleased p; calls := calls p |}.

Definition with_lastFIPConf (s : string) (p : plugin) : plugin :=
  {| objectSelector := objectSelector p; nodeSelector := nodeSelector p;
     fipInvariantSeletor := fipInvariantSeletor p; ipam := ipam p;
     nodeSubnet := nodeSubnet p; Client := Client p;
     lastFIPConf := s; conf := conf p;
     unreleased := unreleased p; calls := calls p |}.

Definition with_unreleased (q : list Pod) (p : plugin) : plugin :=
  {| objectSelector := objectSelector p; nodeSelector := nodeSelector p;
     fipInvariantSeletor := fipInvariantSeletor p; ipam := ipam p;
     nodeSubnet := nodeSubnet p; Client := Client p;
     lastFIPConf := lastFIPConf p; conf := conf p;
     unreleased := q; calls := calls p |}.

Definition with_calls (c : list event) (p : plugin) : plugin :=
  {| objectSelector := objectSelector p; nodeSelector := nodeSelector p;
     fipInvariantSeletor := fipInvariantSeletor p; ipam := ipam p;
     nodeSubnet := nodeSubnet p; Client := Client p;
     lastFIPConf := lastFIPConf p; conf := conf p;
     unreleased := unreleased p; calls := c |}.

Definition log (e : event) (p : plugin) : plugin :=
  with_calls ((calls p ++ [e])%list) p.

(** *** Calls into the IPAM *)

Definition ipam_ConfigurePool (defs : list FloatingIP) : M (option error) :=
  λ p, let '(err, d) := ConfigurePool defs (ipam p) in
       (Val err, log (EvConfigurePool defs) (with_ipam d p)).

Definition ipam_RoutableSubnet (ip : IP) : M (option IPNet) :=
  λ p, (Val (RoutableSubnet ip (ipam p)), log (EvRoutableSubnet ip) p).

Definition ipam_QueryRoutableSubnetByKey (key : string) : M (result (list string)) :=
  λ p, (Val (QueryRoutableSubnetByKey key (ipam p)),
        log (EvQueryRoutableSubnetByKey key) p).

Definition ipam_AllocateInSubnet (key : string) (subnet : option IPNet)
    : M (result IP) :=
  λ p, let '(r, d) := AllocateInSubnet key subnet (ipam p) in
       (Val r, log (EvAllocateInSubnet key subnet) (with_ipam d p)).

Definition ipam_QueryFirst (key : string) : M (result (option IPInfo)) :=
  λ p, (Val (QueryFirst key (ipam p)), log (EvQueryFirst key) p).

Definition ipam_Release (keys : list string) : M (option error) :=
  λ p, let '(err, d) := Release keys (ipam p) in
       (Val err, log (EvRelease keys) (with_ipam d p)).

(** *** Calls into the orchestrator *)

Definition client_ConfigMaps_Get (namespace name : string) : M (result ConfigMap) :=
  λ p, let '(r, k) := ConfigMaps_Get namespace name (Client p) in
       (Val r, log (EvConfigMapsGet namespace name) (with_Client k p)).

Definition client_Nodes_Get (name : string) : M (result Node) :=
  λ p, let '(r, k) := Nodes_Get name (Client p) in
       (Val r, log (EvNodesGet name) (with_Client k p)).

Definition client_Pods_Patch (namespace name data : string) : M (option error) :=
  λ p, let '(err, k) := Pods_Patch namespace name data (Client p) in
       (Val err, log (EvPodsPatch namespace name data) (with_Client k p)).

Definition lister_GetPodTApps (pod : Pod) : M (result (list TApp)) :=
  λ p, let '(r, k) := GetPodTApps pod (Client p) in
       (Val r, log (EvGetPodTApps pod) (with_Client k p)).

(** *** Plain reads and writes of the struct *)

Definition gets {A} (f : plugin → A) : M A := λ p, (Val (f p), p).

Definition set_lastFIPConf (s : string) : M unit :=
  λ p, (Val tt, with_lastFIPConf s p).

Definition set_unreleased (q : list Pod) : M unit :=
  λ p, (Val tt, with_unreleased q p).

(** A [go] statement: the goroutine is only recorded. *)
Definition go (task : string) : M unit := λ p, (Val tt, log (EvGo task) p).

(** [p.unreleased <- pod]: the send blocks while the buffer is full. *)
Definition send_unreleased (pod : Pod) : M unit :=
  λ p, if decide (length (unreleased p) < unreleased_cap)
       then (Val tt, with_unreleased ((unreleased p ++ [pod])%list) p)
       else (Blocked, p).

(** ** Package wait

    [WaitFor] runs the condition once for every tick the poller
    delivers and once more when the poller closes its channel at the
    timeout.  [S] is what the condition closure captures and assigns. *)
Fixpoint WaitFor {S} (ticks : nat) (fn : S → M (S * bool * option error))
    (s : S) : M (S * option error) :=
  match ticks with
  | O =>
      r <- fn s ;;
      match r with
      | (s', _, Some err) => ret (s', Some err)
      | (s', true, None) => ret (s', None)
      | (s', false, None) => ret (s', Some ErrWaitTimeout)
      end
  | Datatypes.S n =>
      r <- fn s ;;
      match r with
      | (s', _, Some err) => ret (s', Some err)
      | (s', true, None) => ret (s', None)
      | (s', false, None) => WaitFor n fn s'
      end
  end.

Definition Poll {S} (interval timeout : Z)
    (condition : S → M (S * bool * option error)) (s : S) : M (S * option error) :=
  WaitFor (poller_ticks interval timeout) condition s.

Definition PollImmediate {S} (interval timeout : Z)
    (condition : S → M (S * bool * option error)) (s : S) : M (S * option error) :=
  r <- condition s ;;
  match r with
  | (s', _, Some err) => ret (s', Some err)
  | (s', true, None) => ret (s', None)
  | (s', false, None) => Poll interval timeout condition s'
  end.

(** [PollInfinite] has no timeout: its poller never closes.  [fuel]
    bounds the ticks that are followed; when it is spent the caller is
    still inside the poll. *)
Fixpoint PollInfinite {S} (fuel : nat) (interval : Z)
    (condition : S → M (S * bool * option error)) (s : S) : M (S * option error) :=
  match fuel with
  | O => λ p, (Blocked, p)
  | Datatypes.S n =>
      r <- condition s ;;
      match r with
      | (s', _, Some err) => ret (s', Some err)
      | (s', true, None) => ret (s', None)
      | (s', false, None) => PollInfinite n interval condition s'
      end
  end.

(** ** The plugin's methods *)

(** [initSelector] *)
Definition initSelector : M (option error) :=
  λ p, (Val None,
        {| objectSelector := SelectorFromSet {["network" := "FLOATINGIP"]};
           nodeSelector := SelectorFromSet {["network" := "floatingip"]};
           fipInvariantSeletor := SelectorFromSet {["floatingip" := "invariant"]};
           ipam := ipam p; nodeSubnet := nodeSubnet p; Client := Client p;
           lastFIPConf := lastFIPConf p; conf := conf p;
           unreleased := unreleased p; calls := calls p |}).

(** [updateConfigMap]: the flag says whether the configuration was
    updated. *)
Definition updateConfigMap : M (bool * option error) :=
  c <- gets conf ;;
  let name := ConfigMapName c in
  let namespace := ConfigMapNamespace c in
  r <- client_ConfigMaps_Get namespace name ;;
  match r with
  | Err err =>
      ret (false, Some (errorString
        ("failed to get floatingip configmap " +:+ name +:+ "_" +:+ namespace
         +:+ ": " +:+ Error err)))
  | Ok cm =>
      match cm_Data cm !! "floatingips" with
      | None =>
          ret (false, Some (errorString
            ("configmap " +:+ name +:+ "_" +:+ namespace
             +:+ " doesn't have a key floatingips")))
      | Some val =>
          last <- gets lastFIPConf ;;
          if String.eqb val last then ret (false, None)
          else
            match json_Unmarshal_FloatingIPs val with
            | Err _ =>
                ret (false, Some (errorString
                  ("failed to unmarshal configmap " +:+ name +:+ "_" +:+ namespace
                   +:+ " val " +:+ val +:+ " to floatingip config")))
            | Ok defs =>
                set_lastFIPConf val ;;;
                _warning <- ipam_ConfigurePool defs ;;
                ret (true, None)
            end
      end
  end.

(** [wantedObject] *)
Definition wantedObject (labels : labelMap) : M bool :=
  match labels with
  | None => ret false
  | Some _ =>
      sel <- gets objectSelector ;;
      if negb (Matches sel labels) then ret false else ret true
  end.

(** [getNodeIP] *)
Fixpoint firstInternalIP (addrs : list NodeAddress) : option IP :=
  match addrs with
  | [] => None
  | a :: rest =>
      if String.eqb (addr_Type a) NodeInternalIP
      then ParseIP (addr_Address a)
      else firstInternalIP rest
  end.

Definition getNodeIP (node : Node) : option IP :=
  firstInternalIP (node_Addresses node).

Definition ErrUnknowNode : error := errorString "FloatingIPPlugin:UnknowNode".
Definition ErrNoFIPConfigNode : error := errorString "FloatingIPPlugin:NoFIPConfigNode".

(** The tail shared by [getNodeSubnet] and [queryNodeSubnet] on a cache
    miss: from the node to its routable subnet. *)
Definition subnetOfNode (node : Node) : M (result IPNet) :=
  match getNodeIP node with
  | None => ret (Err ErrUnknowNode)
  | Some nodeIP =>
      o <- ipam_RoutableSubnet nodeIP ;;
      match o with
      | Some ipNet => ret (Ok ipNet)
      | None => ret (Err ErrNoFIPConfigNode)
      end
  end.

(** [getNodeSubnet] *)
Definition getNodeSubnet (node : Node) : M (result IPNet) :=
  cache <- gets nodeSubnet ;;
  match cache !! node_Name node with
  | None => subnetOfNode node
  | Some subnet => ret (Ok subnet)
  end.

(** [queryNodeSubnet]: the poll's closure assigns [node]; a nil [node]
    after a poll without error would be dereferenced by [getNodeIP]. *)
Definition queryNodeSubnet (nodeName : string) : M (result IPNet) :=
  cache <- gets nodeSubnet ;;
  match cache !! nodeName with
  | None =>
      r <- Poll (100 * Millisecond) Minute
             (λ _ : option Node,
                g <- client_Nodes_Get nodeName ;;
                match g with
                | Ok n => ret (Some n, true, None)
                | Err err =>
                    if negb (IsServerTimeout (Some err))
                    then ret (None, true, Some err)
                    else ret (None, false, None)
                end)
             None ;;
      match r with
      | (_, Some err) => ret (Err err)
      | (None, None) => panic "invalid memory address or nil pointer dereference"
      | (Some node, None) => subnetOfNode node
      end
  | Some subnet => ret (Ok subnet)
  end.

(** One turn of the loop over the candidate nodes in [Filter]. *)
Definition filterNode (subsetSet : gset string)
    (acc : list Node * FailedNodesMap) (node : Node)
    : M (list Node * FailedNodesMap) :=
  let '(filteredNodes, failedNodesMap) := acc in
  let nodeName := node_Name node in
  sel <- gets nodeSelector ;;
  if negb (Matches sel (node_Labels node))
  then ret (filteredNodes, <[nodeName := "FloatingIPPlugin:UnlabelNode"]> failedNodesMap)
  else
    r <- getNodeSubnet node ;;
    match r with
    | Err err => ret (filteredNodes, <[node_Name node := Error err]> failedNodesMap)
    | Ok subnet =>
        if bool_decide (IPNet_String subnet ∈ subsetSet)
        then ret ((filteredNodes ++ [node])%list, failedNodesMap)
        else ret (filteredNodes, <[nodeName := "FloatingIPPlugin:NoFIPLeft"]> failedNodesMap)
    end.

Fixpoint filterNodes (subsetSet : gset string)
    (acc : list Node * FailedNodesMap) (nodes : list Node)
    : M (list Node * FailedNodesMap) :=
  match nodes with
  | [] => ret acc
  | node :: rest =>
      acc' <- filterNode subsetSet acc node ;;
      filterNodes subsetSet acc' rest
  end.

(** [Filter] *)
Definition Filter (pod : Pod) (nodes : list Node)
    : M (list Node * FailedNodesMap * option error) :=
  let failedNodesMap : FailedNodesMap := ∅ in
  wanted <- wantedObject (pod_Labels pod) ;;
  if negb wanted then ret (nodes, failedNodesMap, None)
  else
    let filteredNodes : list Node := [] in
    let key := keyInDB pod in
    r <- ipam_QueryRoutableSubnetByKey key ;;
    match r with
    | Err err =>
        ret (filteredNodes, failedNodesMap,
             Some (errorString ("failed to query by key " +:+ key +:+ ": " +:+ Error err)))
    | Ok subnets =>
        r' <- (if negb (Nat.eqb (length subnets) 0) then ret (Ok subnets)
               else ipam_QueryRoutableSubnetByKey "") ;;
        match r' with
        | Err err =>
            ret (filteredNodes, failedNodesMap,
                 Some (errorString ("failed to query allocatable subnet: " +:+ Error err)))
        | Ok subnets =>
            let subsetSet : gset string := list_to_set subnets in
            acc <- filterNodes subsetSet (filteredNodes, failedNodesMap) nodes ;;
            ret (acc.1, acc.2, None)
        end
    end.

(** [allocateIP].  The error of [queryNodeSubnet] is assigned and then
    overwritten by the one of [AllocateInSubnet]; only the subnet, nil
    on failure, is passed on. *)
Definition allocateIP (key nodeName : string) : M (result labelMap) :=
  r <- ipam_QueryFirst key ;;
  match r with
  | Err err =>
      ret (Err (errorString
        ("failed to query floating ip by key " +:+ key +:+ ": " +:+ Error err)))
  | Ok found =>
      got <- match found with
             | Some ipInfo => ret (Ok ipInfo)
             | None =>
                 q <- queryNodeSubnet nodeName ;;
                 let subnet := match q with Ok s => Some s | Err _ => None end in
                 a <- ipam_AllocateInSubnet key subnet ;;
                 match a with
                 | Err err => ret (Err err)
                 | Ok _ =>
                     r' <- ipam_QueryFirst key ;;
                     match r' with
                     | Err err =>
                         ret (Err (errorString
                           ("failed to query floating ip by key " +:+ key
                            +:+ ": " +:+ Error err)))
                     | Ok None =>
                         ret (Err (errorString
                           ("nil floating ip for key " +:+ key +:+ ": <nil>")))
                     | Ok (Some ipInfo) => ret (Ok ipInfo)
                     end
                 end
             end ;;
      match got with
      | Err err => ret (Err err)
      | Ok ipInfo =>
          match json_Marshal_IPInfo ipInfo with
          | Err err => ret (Err err)
          | Ok data => ret (Ok (Some {[ANNOTATION_FLOATINGIP := data]}))
          end
      end
  end.

(** [releasePodIP] *)
Definition releasePodIP (key : string) : M (option error) :=
  r <- ipam_QueryFirst key ;;
  match r with
  | Err err =>
      ret (Some (errorString
        ("failed to query floating ip of " +:+ key +:+ ": " +:+ Error err)))
  | Ok None => ret None
  | Ok (Some _) =>
      e <- ipam_Release [key] ;;
      match e with
      | Some err =>
          ret (Some (errorString
            ("failed to release floating ip of " +:+ key +:+ ": " +:+ Error err)))
      | None => ret None
      end
  end.

(** [AddPod] *)
Definition AddPod (pod : Pod) : M (option error) := ret None.

(** The condition [Bind] polls: one merge-patch of the pod. *)
Definition patchOnce (args : ExtenderBindingArgs) (patchData : string)
    (_ : unit) : M (unit * bool * option error) :=
  e <- client_Pods_Patch (PodNamespace args) (PodName args) patchData ;;
  match e with
  | Some _ => ret (tt, false, None)
  | None => ret (tt, true, None)
  end.

(** What [Bind] patches the pod with; a marshalling error is logged and
    leaves the data nil. *)
Definition patchDataOf (bind : gmap string string) : string :=
  match json_Marshal_annotations bind with
  | Ok d => d
  | Err _ => ""
  end.

(** The second half of [Bind]: publish the annotations on the pod,
    retrying for 20 s. *)
Definition publish (args : ExtenderBindingArgs) (key : string)
    (bind : gmap string string) : M (option error) :=
  w <- PollImmediate (300 * Millisecond) (20 * Second)
         (patchOnce args (patchDataOf bind)) tt ;;
  match w.2 with
  | Some err =>
      ret (Some (errorString
        ("failed to update pod " +:+ key +:+ ": " +:+ Error err)))
  | None => ret None
  end.

(** [Bind] *)
Definition Bind (args : ExtenderBindingArgs) : M (option error) :=
  let key := fmtKey (PodName args) (PodNamespace args) in
  r <- allocateIP key (BindNode args) ;;
  match r with
  | Err err => ret (Some err)
  | Ok None => ret None
  | Ok (Some bind) => publish args key bind
  end.

(** [evicted] *)
Definition evicted (pod : Pod) : bool :=
  String.eqb (pod_Phase pod) PodFailed && String.eqb (pod_Reason pod) "Evicted".

(** [UpdatePod] *)
Definition UpdatePod (oldPod newPod : Pod) : M (option error) :=
  wanted <- wantedObject (pod_Labels newPod) ;;
  if negb wanted then ret None
  else
    (if evicted newPod then send_unreleased newPod else ret tt) ;;;
    ret None.

(** [RemovePod] *)
Definition RemovePod (pod : Pod) : M (option error) :=
  wanted <- wantedObject (pod_Labels pod) ;;
  if negb wanted then ret None
  else send_unreleased pod ;;; ret None.

(** The test of the loop over [tapp.Spec.Statuses] in [unbind]: an
    entry is skipped unless it is killed and its index is the pod's
    instance label. *)
Definition killedInstance (label : string) (entry : string * string) : bool :=
  negb (negb (tappInstanceKilled entry.2) || negb (String.eqb entry.1 label)).

(** [unbind].  [tapps[0]] panics on an empty slice. *)
Definition unbind (pod : Pod) : M (option error) :=
  let key := keyInDB pod in
  sel <- gets fipInvariantSeletor ;;
  if negb (Matches sel (pod_Labels pod)) then releasePodIP key
  else
    r <- lister_GetPodTApps pod ;;
    match r with
    | Err _ => releasePodIP key
    | Ok tapps =>
        match tapps with
        | [] => panic "runtime error: index out of range"
        | tapp :: _ =>
            match List.find (killedInstance (map_index (pod_Labels pod) TAppInstanceKey))
                            (map_to_list (tapp_Statuses tapp)) with
            | Some _ => releasePodIP key
            | None => ret None
            end
        end
    end.

(** One turn of [loop]: receive a pod, [unbind] it, and send it back
    when that failed.  The receive blocks on an empty channel. *)
Definition loop_step : M unit :=
  q <- gets unreleased ;;
  match q with
  | [] => λ p, (Blocked, p)
  | pod :: rest =>
      set_unreleased rest ;;;
      err <- unbind pod ;;
      match err with
      | Some _ => send_unreleased pod
      | None => ret tt
      end
  end.

(** The condition [NewFloatingIPPlugin] polls at start-up. *)
Definition bootPoll (_ : unit) : M (unit * bool * option error) :=
  u <- updateConfigMap ;;
  ret (tt, u.1, None).

(** The defaults [NewFloatingIPPlugin] fills in. *)
Definition defaultConf (c : Conf) : Conf :=
  {| FloatingIPs := FloatingIPs c;
     conf_DBConfig := conf_DBConfig c;
     ResyncInterval := if (ResyncInterval c <? 1)%N then 1%N else ResyncInterval c;
     ConfigMapName :=
       if String.eqb (ConfigMapName c) "" then "floatingip-config" else ConfigMapName c;
     ConfigMapNamespace :=
       if String.eqb (ConfigMapNamespace c) "" then "kube-system"
       else ConfigMapNamespace c |}.

(** What [NewFloatingIPPlugin] does with the fresh struct. *)
Definition startPlugin (fuel : nat) : M (option error) :=
  initSelector ;;;
  c <- gets conf ;;
  configured <-
    (if Nat.ltb 0 (length (FloatingIPs c))
     then ipam_ConfigurePool (FloatingIPs c)
     else
       w <- PollInfinite fuel (100 * Millisecond) bootPoll tt ;;
       match w.2 with
       | Some err =>
           ret (Some (errorString
             ("failed to get floatingip config from configmap: " +:+ Error err)))
       | None => go "updateConfigMap" ;;; ret None
       end) ;;
  match configured with
  | Some err => ret (Some err)
  | None => go "resyncPod" ;;; go "loop" ;;; ret None
  end.

(** [NewFloatingIPPlugin]; [fuel] bounds the start-up poll. *)
Definition NewFloatingIPPlugin (fuel : nat) (c : Conf) (args : K)
    : outcome (result plugin) :=
  let c := defaultConf c in
  match openIPAM (conf_DBConfig c) with
  | Err err => Val (Err err)
  | Ok d =>
      let p := {| objectSelector := []; nodeSelector := [];
                  fipInvariantSeletor := [];
                  ipam := d; nodeSubnet := ∅; Client := args;
                  lastFIPConf := ""; conf := c; unreleased := [];
                  calls := [] |} in
      match startPlugin fuel p with
      | (Val None, p') => Val (Ok p')
      | (Val (Some err), _) => Val (Err err)
      | (Panic msg, _) => Panic msg
      | (Blocked, _) => Blocked
      end
  end.

(** ** The vocabulary of the specification *)

(** The plugin went through [initSelector]. *)
Definition selectorsSet (p : plugin) : Prop :=
  objectSelector p = SelectorFromSet {["network" := "FLOATINGIP"]}
  ∧ nodeSelector p = SelectorFromSet {["network" := "floatingip"]}
  ∧ fipInvariantSeletor p = SelectorFromSet {["floatingip" := "invariant"]}.

(** [subnetOf(n)]: the cache entry of the node if there is one, else
    the routable subnet of its internal address. *)
Definition spec_subnetOf (p : plugin) (node : Node) : result IPNet :=
  match nodeSubnet p !! node_Name node with
  | Some subnet => Ok subnet
  | None =>
      match getNodeIP node with
      | None => Err ErrUnknowNode
      | Some ip =>
          match RoutableSubnet ip (ipam p) with
          | Some subnet => Ok subnet
          | None => Err ErrNoFIPConfigNode
          end
      end
  end.

(** [subnetsForKey(k)]: the subnets already owning an IP for the key
    if there are any, otherwise all subnets with a free IP. *)
Definition spec_subnetsForKey (p : plugin) (key : string) : result (gset string) :=
  match QueryRoutableSubnetByKey key (ipam p) with
  | Err err => Err err
  | Ok [] =>
      match QueryRoutableSubnetByKey "" (ipam p) with
      | Err err => Err err
      | Ok free => Ok (list_to_set free)
      end
  | Ok owned => Ok (list_to_set owned)
  end.

(** [nodeSelector.matches(n) ∧ subnetOf(n) ∈ subnets] *)
Definition spec_accepted (p : plugin) (subnets : gset string) (node : Node) : bool :=
  Matches (nodeSelector p) (node_Labels node)
  && match spec_subnetOf p node with
     | Ok subnet => bool_decide (IPNet_String subnet ∈ subnets)
     | Err _ => false
     end.

(** Why a node that is not accepted is rejected. *)
Definition spec_reason (p : plugin) (node : Node) : string :=
  if Matches (nodeSelector p) (node_Labels node)
  then match spec_subnetOf p node with
       | Ok _ => "FloatingIPPlugin:NoFIPLeft"
       | Err err => Error err
       end
  else "FloatingIPPlugin:UnlabelNode".

(** The rejections of a candidate list: each rejected node under its
    name; a later candidate of the same name overwrites an earlier one,
    as the assignments to [failedNodesMap] do. *)
Definition spec_reject (p : plugin) (subnets : gset string)
    (failed : FailedNodesMap) (node : Node) : FailedNodesMap :=
  if spec_accepted p subnets node then failed
  else <[node_Name node := spec_reason p node]> failed.

Definition spec_failedNodes (p : plugin) (subnets : gset string)
    (nodes : list Node) : FailedNodesMap :=
  foldl (spec_reject p subnets) ∅ nodes.

(** The pod carries [floatingip=invariant]. *)
Definition spec_invariant (pod : Pod) : bool :=
  bool_decide (map_get (pod_Labels pod) "floatingip" = Some "invariant").

(** The status the TApp records for an instance is [killed], in any
    letter case. *)
Definition spec_killed (tapp : TApp) (instance : string) : bool :=
  match tapp_Statuses tapp !! instance with
  | Some status => bool_decide (ToLower status = "killed")
  | None => false
  end.

(** The attempts [Bind] makes at the patch: the immediate one, one per
    tick of the poller, and the one when the poller closes. *)
Definition bind_patch_attempts : nat :=
  S (S (poller_ticks (300 * Millisecond) (20 * Second))).

(** The next [n] patches of the pod with [data] all fail. *)
Fixpoint patches_fail (n : nat) (namespace name data : string) (k : K) : bool :=
  match n with
  | O => true
  | S n' =>
      match Pods_Patch namespace name data k with
      | (Some _, k') => patches_fail n' namespace name data k'
      | (None, _) => false
      end
  end.

(** [p'] is [p] after calls that left the store, the cache, the last
    pool document and the queue alone and logged only events in [Q]. *)
Definition only_logged (Q : event → Prop) (p p' : plugin) : Prop :=
  ipam p' = ipam p
  ∧ nodeSubnet p' = nodeSubnet p
  ∧ lastFIPConf p' = lastFIPConf p
  ∧ unreleased p' = unreleased p
  ∧ ∃ evs, calls p' = (calls p ++ evs)%list ∧ Forall Q evs.

Definition is_patch (e : event) : Prop :=
  match e with
  | EvPodsPatch _ _ _ => True
  | _ => False
  end.

Definition is_node_read (e : event) : Prop :=
  match e with
  | EvNodesGet _ | EvRoutableSubnet _ => True
  | _ => False
  end.

(** The annotation [allocateIP] builds from a record. *)
Definition annotationOf (info : IPInfo) : result labelMap :=
  match json_Marshal_IPInfo info with
  | Ok data => Ok (Some {[ANNOTATION_FLOATINGIP := data]})
  | Err err => Err err
  end.

(** The events of a log that allocate or release. *)
Definition allocates (e : event) : Prop :=
  match e with
  | EvAllocateInSubnet _ _ => True
  | _ => False
  end.

Definition releases (e : event) : Prop :=
  match e with
  | EvRelease _ => True
  | _ => False
  end.

End Plugin.

(** ** A concrete world

    The statements below are over every [Lib], [IPAM] and
    [Orchestrator].  To run the methods, this part supplies one of each:
    IPv4 addresses as 32-bit numbers, an allocation store, and a cluster
    that answers from a script. *)

Record ipnet := {
  net_base : N;
  net_bits : N;
}.

Definition ipnet_contains (n : ipnet) (ip : N) : bool :=
  (N.shiftr ip (32 - net_bits n) =? N.shiftr (net_base n) (32 - net_bits n))%N.

Definition ip_string (ip : N) : string :=
  pretty (N.shiftr ip 24 `mod` 256)%N +:+ "." +:+
  pretty (N.shiftr ip 16 `mod` 256)%N +:+ "." +:+
  pretty (N.shiftr ip 8 `mod` 256)%N +:+ "." +:+
  pretty (ip `mod` 256)%N.

Definition ipnet_string (n : ipnet) : string :=
  ip_string (net_base n) +:+ "/" +:+ pretty (net_bits n).

Definition digit_of (c : Ascii.ascii) : option N :=
  let n := Ascii.N_of_ascii c in
  if ((48 <=? n) && (n <=? 57))%N then Some (n - 48)%N else None.

Fixpoint parse_quad (s : string) (cur : option N) (acc : list N) : option (list N) :=
  match s with
  | EmptyString =>
      match cur with
      | Some n => Some (acc ++ [n])%list
      | None => None
      end
  | String c rest =>
      if Ascii.eqb c "."%char
      then match cur with
           | Some n => parse_quad rest None (acc ++ [n])%list
           | None => None
           end
      else match digit_of c with
           | Some d => parse_quad rest (Some (10 * default 0 cur + d)%N) acc
           | None => None
           end
  end.

Definition parse_ip (s : string) : option N :=
  match parse_quad s None [] with
  | Some [a; b; c; d] =>
      if forallb (λ x, (x <? 256)%N) [a; b; c; d]
      then Some (((a * 256 + b) * 256 + c) * 256 + d)%N
      else None
  | _ => None
  end.

(** One contiguous range of floating IPs inside a routable subnet. *)
Record fipdef := {
  fip_subnet : ipnet;
  fip_first : N;
  fip_last : N;
}.

Record ipinfo := {
  info_ip : N;
  info_subnet : ipnet;
}.

(** Pool documents the stand-in for [json.Unmarshal] knows how to read. *)
Definition subnet29 : ipnet := {| net_base := 167772160; net_bits := 29 |}.
Definition pool_10_0_0_1_3 : list fipdef :=
  [ {| fip_subnet := subnet29; fip_first := 167772161; fip_last := 167772163 |} ].
Definition pool_overlapping : list fipdef :=
  [ {| fip_subnet := subnet29; fip_first := 167772161; fip_last := 167772163 |};
    {| fip_subnet := subnet29; fip_first := 167772162; fip_last := 167772164 |} ].

Definition documents : list (string * list fipdef) :=
  [ ("[{10.0.0.0/29: 10.0.0.1~10.0.0.3}]", pool_10_0_0_1_3);
    ("[{10.0.0.0/29: 10.0.0.1~10.0.0.3}, {10.0.0.0/29: 10.0.0.2~10.0.0.4}]",
     pool_overlapping) ].

Fixpoint assoc {A} (k : string) (l : list (string * A)) : option A :=
  match l with
  | [] => None
  | (k', v) :: rest => if String.eqb k k' then Some v else assoc k rest
  end.

#[export] Instance exLib : Lib := {|
  IP := N;
  IPNet := ipnet;
  IPInfo := ipinfo;
  FloatingIP := fipdef;
  DBConfig := unit;
  ParseIP := parse_ip;
  IPNet_String := ipnet_string;
  IPInfo_IP_String := λ i, ip_string (info_ip i);
  json_Marshal_IPInfo := λ i,
    Ok ("{ip:" +:+ ip_string (info_ip i) +:+ ",routableSubnet:"
        +:+ ipnet_string (info_subnet i) +:+ "}");
  json_Marshal_annotations := λ a,
    Ok ("{metadata:{annotations:{floatingip:"
        +:+ default "" (a !! "floatingip") +:+ "}}}");
  json_Unmarshal_FloatingIPs := λ s,
    match assoc s documents with
    | Some defs => Ok defs
    | None => Err (errorString "invalid character")
    end;
  keyInDB := λ pod, pod_Namespace pod +:+ "_" +:+ pod_Name pod;
  fmtKey := λ name namespace, namespace +:+ "_" +:+ name;
  TAppInstanceKey := "tapp_instance_key";
  poller_ticks := λ interval timeout, Z.to_nat (timeout / interval);
|}.

(** Modelled from the spec: the IPAM implementation (package
    [floatingip]) and its allocation store are outside the embedded
    files.  A row per configured IP with its subnet and owner key, the
    empty key meaning free; [AllocateInSubnet] refuses a key that
    already owns an IP and otherwise claims the smallest free IP of the
    subnet; [QueryFirst] selects the smallest IP of the key;
    [ConfigurePool] rejects overlapping ranges and keeps owned rows. *)
Record row := {
  row_ip : N;
  row_subnet : ipnet;
  row_key : string;
}.

Record store := {
  st_pool : list fipdef;
  st_rows : list row;
}.

Definition ipnet_eqb (a b : ipnet) : bool :=
  ((net_base a =? net_base b) && (net_bits a =? net_bits b))%N.

Definition ranges_overlap (a b : fipdef) : bool :=
  ((fip_first a <=? fip_last b) && (fip_first b <=? fip_last a))%N.

Fixpoint pool_valid (defs : list fipdef) : bool :=
  match defs with
  | [] => true
  | d :: rest =>
      (fip_first d <=? fip_last d)%N
      && forallb (λ d', negb (ranges_overlap d d')) rest
      && pool_valid rest
  end.

Definition def_ips (d : fipdef) : list N :=
  map (λ i, (fip_first d + N.of_nat i)%N)
      (seq 0 (N.to_nat (fip_last d + 1 - fip_first d))).

Definition owner_of (rows : list row) (ip : N) : string :=
  match List.find (λ r, (row_ip r =? ip)%N) rows with
  | Some r => row_key r
  | None => ""
  end.

Definition in_pool (defs : list fipdef) (ip : N) : bool :=
  existsb (λ d, ((fip_first d <=? ip) && (ip <=? fip_last d))%N) defs.

(** Modelled from the spec: [Reconcile] upserts the rows the definitions
    imply, keeping the owner of an IP that already has a row, and keeps
    owned rows that fell out of the pool. *)
Definition reconcile (defs : list fipdef) (rows : list row) : list row :=
  flat_map (λ d, map (λ ip, {| row_ip := ip; row_subnet := fip_subnet d;
                               row_key := owner_of rows ip |}) (def_ips d)) defs
  ++ filter (λ r, negb (String.eqb (row_key r) "") && negb (in_pool defs (row_ip r))) rows.

Definition ErrConfig : error := errorString "floating ip ranges overlap".
Definition ErrNoEnoughIP : error := errorString "no enough available ips left".
Definition ErrAlreadyAllocated : error := errorString "already allocated".

(** Modelled from the spec: [ConfigurePool] validates non-overlap, then
    reconciles; it fails with a configuration error and changes nothing
    otherwise. *)
Definition store_ConfigurePool (defs : list fipdef) (s : store) : option error * store :=
  if pool_valid defs
  then (None, {| st_pool := defs; st_rows := reconcile defs (st_rows s) |})
  else (Some ErrConfig, s).

(** Modelled from the spec: [RoutableSubnet] returns the configured
    routable subnet containing the address, or nil. *)
Definition store_RoutableSubnet (ip : N) (s : store) : option ipnet :=
  fip_subnet <$> List.find (λ d, ipnet_contains (fip_subnet d) ip) (st_pool s).

Fixpoint dedup_strings (l : list string) : list string :=
  match l with
  | [] => []
  | x :: rest =>
      if existsb (String.eqb x) rest then dedup_strings rest
      else x :: dedup_strings rest
  end.

(** Modelled from the spec: [QueryRoutableSubnetByKey] returns the
    subnets in which the key holds an IP; the empty key is the owner of
    the free rows, so it yields the subnets with a free IP. *)
Definition store_QueryRoutableSubnetByKey (key : string) (s : store)
    : result (list string) :=
  Ok (dedup_strings
        (map (λ r, ipnet_string (row_subnet r))
             (filter (λ r, String.eqb (row_key r) key) (st_rows s)))).

(** The row with the smallest IP among those passing [f]. *)
Fixpoint smallest (f : row → bool) (rows : list row) : option row :=
  match rows with
  | [] => None
  | r :: rest =>
      match smallest f rest with
      | Some r' =>
          if f r && (row_ip r <? row_ip r')%N then Some r else Some r'
      | None => if f r then Some r else None
      end
  end.

(** Modelled from the spec: [QueryFirst] selects the smallest IP the key
    owns, nil when it owns none. *)
Definition store_QueryFirst (key : string) (s : store) : result (option ipinfo) :=
  Ok ((λ r, {| info_ip := row_ip r; info_subnet := row_subnet r |})
        <$> smallest (λ r, String.eqb (row_key r) key) (st_rows s)).

Definition claim (ip : N) (key : string) (rows : list row) : list row :=
  map (λ r, if (row_ip r =? ip)%N
            then {| row_ip := row_ip r; row_subnet := row_subnet r; row_key := key |}
            else r) rows.

(** Modelled from the spec: [AllocateInSubnet] answers
    [ErrAlreadyAllocated] when the key owns an IP, and otherwise claims
    the smallest free row of the subnet or answers [ErrNoEnoughIP]; a
    nil subnet has no rows. *)
Definition store_AllocateInSubnet (key : string) (subnet : option ipnet) (s : store)
    : result N * store :=
  if existsb (λ r, String.eqb (row_key r) key) (st_rows s)
  then (Err ErrAlreadyAllocated, s)
  else
    match subnet with
    | None => (Err ErrNoEnoughIP, s)
    | Some n =>
        match smallest (λ r, String.eqb (row_key r) "" && ipnet_eqb (row_subnet r) n)
                       (st_rows s) with
        | Some r =>
            (Ok (row_ip r),
             {| st_pool := st_pool s; st_rows := claim (row_ip r) key (st_rows s) |})
        | None => (Err ErrNoEnoughIP, s)
        end
    end.

(** Modelled from the spec: [Release] frees the rows of the keys;
    releasing a free row is a no-op success. *)
Definition store_Release (keys : list string) (s : store) : option error * store :=
  (None,
   {| st_pool := st_pool s;
      st_rows := map (λ r, if existsb (String.eqb (row_key r)) keys
                           then {| row_ip := row_ip r; row_subnet := row_subnet r;
                                   row_key := "" |}
                           else r) (st_rows s) |}).

#[export] Instance storeIPAM : IPAM store := {|
  openIPAM := λ _, Ok {| st_pool := []; st_rows := [] |};
  ConfigurePool := store_ConfigurePool;
  RoutableSubnet := store_RoutableSubnet;
  QueryRoutableSubnetByKey := store_QueryRoutableSubnetByKey;
  AllocateInSubnet := store_AllocateInSubnet;
  QueryFirst := store_QueryFirst;
  Release := store_Release;
|}.

(** A cluster that answers from a script: the configmap reads in order
    (the last answer repeats), the nodes it has, how many of the coming
    node reads time out and how many of the coming patches fail, and the
    answer of the TApp lister. *)
Record cluster := {
  cl_configmaps : list (result ConfigMap);
  cl_nodes : list Node;
  cl_node_timeouts : nat;
  cl_patch_failures : nat;
  cl_tapps : result (list TApp);
}.

Definition cluster_ConfigMaps_Get (namespace name : string) (c : cluster)
    : result ConfigMap * cluster :=
  match cl_configmaps c with
  | [] => (Err (StatusError "NotFound" "configmaps not found"), c)
  | [r] => (r, c)
  | r :: rest =>
      (r, {| cl_configmaps := rest; cl_nodes := cl_nodes c;
             cl_node_timeouts := cl_node_timeouts c;
             cl_patch_failures := cl_patch_failures c; cl_tapps := cl_tapps c |})
  end.

Definition cluster_Nodes_Get (name : string) (c : cluster) : result Node * cluster :=
  match cl_node_timeouts c with
  | S n =>
      (Err (StatusError "ServerTimeout" "the server timed out"),
       {| cl_configmaps := cl_configmaps c; cl_nodes := cl_nodes c;
          cl_node_timeouts := n;
          cl_patch_failures := cl_patch_failures c; cl_tapps := cl_tapps c |})
  | O =>
      match List.find (λ n, String.eqb (node_Name n) name) (cl_nodes c) with
      | Some n => (Ok n, c)
      | None => (Err (StatusError "NotFound" "nodes not found"), c)
      end
  end.

Definition cluster_Pods_Patch (namespace name data : string) (c : cluster)
    : option error * cluster :=
  match cl_patch_failures c with
  | S n =>
      (Some (StatusError "InternalError" "patch rejected"),
       {| cl_configmaps := cl_configmaps c; cl_nodes := cl_nodes c;
          cl_node_timeouts := cl_node_timeouts c;
          cl_patch_failures := n; cl_tapps := cl_tapps c |})
  | O => (None, c)
  end.

#[export] Instance clusterOrchestrator : Orchestrator cluster := {|
  ConfigMaps_Get := cluster_ConfigMaps_Get;
  Nodes_Get := cluster_Nodes_Get;
  Pods_Patch := cluster_Pods_Patch;
  GetPodTApps := λ _ c, (cl_tapps c, c);
|}.

(** *** Example inputs

    A pool of three floating IPs in 10.0.0.0/29; [node_n1] is labelled
    and lives in that subnet, [node_n2] has no internal address,
    [node_n3] has no labels, [node_n4] lives outside every pool. *)
Definition node_n1 : Node :=
  {| node_Name := "n1"; node_Labels := Some {["network" := "floatingip"]};
     node_Addresses := [ {| addr_Type := "Hostname"; addr_Address := "n1" |};
                         {| addr_Type := "InternalIP"; addr_Address := "10.0.0.6" |} ] |}.
Definition node_n2 : Node :=
  {| node_Name := "n2"; node_Labels := Some {["network" := "floatingip"]};
     node_Addresses := [ {| addr_Type := "Hostname"; addr_Address := "n2" |} ] |}.
Definition node_n3 : Node :=
  {| node_Name := "n3"; node_Labels := None;
     node_Addresses := [ {| addr_Type := "InternalIP"; addr_Address := "10.0.0.5" |} ] |}.
Definition node_n4 : Node :=
  {| node_Name := "n4"; node_Labels := Some {["network" := "floatingip"]};
     node_Addresses := [ {| addr_Type := "InternalIP"; addr_Address := "10.0.1.5" |} ] |}.

Definition ex_nodes : list Node := [node_n1; node_n2; node_n3; node_n4].

Definition ex_cluster : cluster :=
  {| cl_configmaps := []; cl_nodes := ex_nodes; cl_node_timeouts := 0;
     cl_patch_failures := 0; cl_tapps := Ok [] |}.

(** The same cluster rejecting the next hundred patches. *)
Definition ex_cluster_rejecting : cluster :=
  {| cl_configmaps := []; cl_nodes := ex_nodes; cl_node_timeouts := 0;
     cl_patch_failures := 100; cl_tapps := Ok [] |}.


(** A cluster whose configmap read fails once and then serves a pool
    document with overlapping ranges. *)
Definition overlapping_document : ConfigMap :=
  {| cm_Data :=
       {["floatingips" :=
         "[{10.0.0.0/29: 10.0.0.1~10.0.0.3}, {10.0.0.0/29: 10.0.0.2~10.0.0.4}]"]} |}.

Definition ex_cluster_overlapping : cluster :=
  {| cl_configmaps := [Err (StatusError "ServiceUnavailable" "apiserver not ready");
                       Ok overlapping_document];
     cl_nodes := ex_nodes; cl_node_timeouts := 0;
     cl_patch_failures := 0; cl_tapps := Ok [] |}.

Definition ex_conf_inline : Conf :=
  {| FloatingIPs := pool_10_0_0_1_3; conf_DBConfig := None; ResyncInterval := 0;
     ConfigMapName := ""; ConfigMapNamespace := "" |}.

Definition ex_conf_configmap : Conf :=
  {| FloatingIPs := []; conf_DBConfig := None; ResyncInterval := 0;
     ConfigMapName := ""; ConfigMapNamespace := "" |}.

Definition blank_plugin (k : cluster) : FloatingIPPlugin store cluster :=
  {| objectSelector := []; nodeSelector := []; fipInvariantSeletor := [];
     ipam := {| st_pool := []; st_rows := [] |}; nodeSubnet := ∅; Client := k;
     lastFIPConf := ""; conf := defaultConf ex_conf_configmap; unreleased := [];
     calls := [] |}.

(** The plugin as [NewFloatingIPPlugin] returns it. *)
Definition started (fuel : nat) (c : Conf) (k : cluster) : FloatingIPPlugin store cluster :=
  match NewFloatingIPPlugin fuel c k with
  | Val (Ok p) => p
  | _ => blank_plugin k
  end.

Definition ex_plugin : FloatingIPPlugin store cluster :=
  started 0 ex_conf_inline ex_cluster.
Definition ex_plugin_rejecting : FloatingIPPlugin store cluster :=
  started 0 ex_conf_inline ex_cluster_rejecting.

(** The pool watcher before its first poll, facing the overlapping
    document. *)
Definition ex_plugin_watching : FloatingIPPlugin store cluster :=
  (initSelector
     (blank_plugin
        {| cl_configmaps := [Ok overlapping_document]; cl_nodes := ex_nodes;
           cl_node_timeouts := 0; cl_patch_failures := 0; cl_tapps := Ok [] |})).2.

Definition ex_pod : Pod :=
  {| pod_Name := "p1"; pod_Namespace := "ns";
     pod_Labels := Some {["network" := "FLOATINGIP"]};
     pod_Annotations := None; pod_Phase := "Running"; pod_Reason := "" |}.

Definition ex_pod_unlabelled : Pod :=
  {| pod_Name := "p0"; pod_Namespace := "ns"; pod_Labels := None;
     pod_Annotations := None; pod_Phase := "Failed"; pod_Reason := "Evicted" |}.

Definition ex_pod_invariant : Pod :=
  {| pod_Name := "app-0"; pod_Namespace := "ns";
     pod_Labels := Some (<["network" := "FLOATINGIP"]>
                          (<["floatingip" := "invariant"]>
                            {["tapp_instance_key" := "0"]}));
     pod_Annotations := None; pod_Phase := "Running"; pod_Reason := "" |}.

Definition ex_bind (node : string) : ExtenderBindingArgs :=
  {| PodName := "p1"; PodNamespace := "ns"; PodUID := "uid-1"; BindNode := node |}.

Definition ex_annotation : gmap string string :=
  {["floatingip" := "{ip:10.0.0.1,routableSubnet:10.0.0.0/29}"]}.

(** ** Further vocabulary for the plugin *)

Section PluginMore.
Context `{L : Lib} {db K : Type} `{!IPAM db} `{!Orchestrator K}.

(** [p'] is [p] with nothing changed but the log, which grew by events
    in [Q]. *)
Definition reads_only (Q : event → Prop) (p p' : FloatingIPPlugin db K) : Prop :=
  ∃ evs, p' = with_calls (calls p ++ evs) p ∧ Forall Q evs.

Definition is_subnet_query (e : event) : Prop :=
  match e with
  | EvQueryRoutableSubnetByKey _ | EvRoutableSubnet _ => True
  | _ => False
  end.

Definition is_key_query (e : event) : Prop :=
  match e with
  | EvQueryRoutableSubnetByKey _ => True
  | _ => False
  end.

Definition is_node_fetch (e : event) : Prop :=
  match e with
  | EvNodesGet _ => True
  | _ => False
  end.

(** The next [j] patches of the pod fail and the one after succeeds. *)
Fixpoint patch_succeeds_after (j : nat) (namespace name data : string) (k : K) : bool :=
  match Pods_Patch namespace name data k with
  | (Some _, k') =>
      match j with
      | O => false
      | S j' => patch_succeeds_after j' namespace name data k'
      end
  | (None, _) =>
      match j with
      | O => true
      | S _ => false
      end
  end.

(** The orchestrator after [j] patches of the pod. *)
Fixpoint after_patches (j : nat) (namespace name data : string) (k : K) : K :=
  match j with
  | O => k
  | S j' => after_patches j' namespace name data (Pods_Patch namespace name data k).2
  end.

(** The next [n] reads of the node all end in a server timeout. *)
Fixpoint node_reads_time_out (n : nat) (name : string) (k : K) : bool :=
  match n with
  | O => true
  | S n' =>
      match Nodes_Get name k with
      | (Err err, k') =>
          IsServerTimeout (Some err) && node_reads_time_out n' name k'
      | (Ok _, _) => false
      end
  end.

(** A pod the plugin cares about: its labels carry [network=FLOATINGIP]. *)
Definition wanted (pod : Pod) : bool :=
  bool_decide (map_get (pod_Labels pod) "network" = Some "FLOATINGIP").

End PluginMore.

(** *** More example inputs *)

(** An IPAM whose database is out of order: subnet queries fail, an
    allocation is acknowledged but leaves no record behind. *)
Definition ErrDatabase : error := errorString "database is gone".

Definition lossyIPAM : IPAM unit := {|
  openIPAM := λ _, Err ErrDatabase;
  ConfigurePool := λ _ d, (Some ErrDatabase, d);
  RoutableSubnet := λ _ _, Some subnet29;
  QueryRoutableSubnetByKey := λ _ _, Err ErrDatabase;
  AllocateInSubnet := λ _ _ d, (Ok 167772161%N, d);
  QueryFirst := λ _ _, Ok None;
  Release := λ _ d, (None, d);
|}.

Definition ex_plugin_lossy : FloatingIPPlugin unit cluster :=
  (initSelector
     {| objectSelector := []; nodeSelector := []; fipInvariantSeletor := [];
        ipam := tt; nodeSubnet := ∅; Client := ex_cluster;
        lastFIPConf := ""; conf := defaultConf ex_conf_inline; unreleased := [];
        calls := [] |}).2.

Definition bind_of (name node : string) : ExtenderBindingArgs :=
  {| PodName := name; PodNamespace := "ns"; PodUID := "uid"; BindNode := node |}.

(** The plugin after three pods took the three IPs of the pool. *)
Definition ex_plugin_full : FloatingIPPlugin store cluster :=
  (Bind (bind_of "c" "n1") (Bind (bind_of "b" "n1") (Bind (bind_of "a" "n1") ex_plugin).2).2).2.

(** The cluster rejecting the next two patches only. *)
Definition ex_cluster_flaky : cluster :=
  {| cl_configmaps := []; cl_nodes := ex_nodes; cl_node_timeouts := 0;
     cl_patch_failures := 2; cl_tapps := Ok [] |}.
Definition ex_plugin_flaky : FloatingIPPlugin store cluster :=
  started 0 ex_conf_inline ex_cluster_flaky.

Definition ex_pod_evicted : Pod :=
  {| pod_Name := "p1"; pod_Namespace := "ns";
     pod_Labels := Some {["network" := "FLOATINGIP"]};
     pod_Annotations := None; pod_Phase := "Failed"; pod_Reason := "Evicted" |}.

Definition ex_pod_other : Pod :=
  {| pod_Name := "web"; pod_Namespace := "ns";
     pod_Labels := Some {["app" := "web"]};
     pod_Annotations := None; pod_Phase := "Failed"; pod_Reason := "Evicted" |}.

(** ** Properties *)

Section Properties.
Context `{L : Lib} {db K : Type} `{!IPAM db} `{!Orchestrator K}.

Implicit Types p q : FloatingIPPlugin db K.

(** *** The struct and the log *)

(** Reads of a field through the field updates. *)
Ltac fields :=
  cbn [ipam nodeSubnet Client lastFIPConf conf unreleased calls
       objectSelector nodeSelector fipInvariantSeletor
       log with_calls with_Client with_ipam with_lastFIPConf with_unreleased
       fst snd] in *.

Lemma with_calls_same p : with_calls (calls p ++ []) p = p.
Proof. destruct p; unfold with_calls; cbn. by rewrite app_nil_r. Qed.

Lemma with_calls_app p evs evs' :
  with_calls (calls (with_calls (calls p ++ evs) p) ++ evs') (with_calls (calls p ++ evs) p)
  = with_calls (calls p ++ (evs ++ evs')) p.
Proof. unfold with_calls; cbn. by rewrite app_assoc. Qed.

Lemma log_with_calls p e : log e p = with_calls (calls p ++ [e]) p.
Proof. reflexivity. Qed.

(** *** Selectors *)

Lemma Matches_singleton k v ls :
  Matches (SelectorFromSet {[k := v]}) ls = bool_decide (map_get ls k = Some v).
Proof.
  unfold Matches, SelectorFromSet. rewrite map_to_list_singleton. cbn.
  by rewrite andb_true_r.
Qed.

Lemma initSelector_selectorsSet p : selectorsSet (initSelector p).2.
Proof. by repeat split. Qed.

Lemma wantedObject_false p ls :
  selectorsSet p → ls = None ∨ ls = Some ∅ → wantedObject ls p = (Val false, p).
Proof.
  intros (Hobj & _ & _) [-> | ->]; [done|].
  unfold wantedObject, bind, gets. rewrite Hobj, Matches_singleton. done.
Qed.

Lemma wantedObject_true p ls :
  selectorsSet p → Matches (objectSelector p) ls = true →
  wantedObject ls p = (Val true, p).
Proof.
  intros (Hobj & _ & _) Hm. destruct ls as [g|].
  - unfold wantedObject, bind, gets. by rewrite Hm.
  - rewrite Hobj, Matches_singleton in Hm. done.
Qed.

(** C10.  A pod without labels, nil or empty, is not the plugin's
    business: [Filter] hands back all the nodes with an empty
    [failedNodes] map and no error, [UpdatePod] and [RemovePod] return
    nil; none of them touches the plugin, so nothing is queued for
    release. *)
Theorem unlabelled_pod_passes_through p (oldPod pod : Pod) (nodes : list Node) :
  selectorsSet p →
  pod_Labels pod = None ∨ pod_Labels pod = Some ∅ →
  Filter pod nodes p = (Val (nodes, ∅, None), p)
  ∧ UpdatePod oldPod pod p = (Val None, p)
  ∧ RemovePod pod p = (Val None, p).
Proof.
  intros Hsel Hls.
  pose proof (wantedObject_false p _ Hsel Hls) as Hw.
  unfold Filter, UpdatePod, RemovePod, bind. by rewrite Hw.
Qed.

(** *** Filter *)

Lemma getNodeSubnet_spec p node :
  ∃ evs, getNodeSubnet node p
         = (Val (spec_subnetOf p node), with_calls (calls p ++ evs) p).
Proof.
  unfold getNodeSubnet, spec_subnetOf, subnetOfNode, bind, gets.
  destruct (nodeSubnet p !! node_Name node) as [subnet|].
  { exists []. by rewrite with_calls_same. }
  destruct (getNodeIP node) as [ip|].
  2:{ exists []. by rewrite with_calls_same. }
  exists [EvRoutableSubnet ip]. unfold ipam_RoutableSubnet.
  by destruct (RoutableSubnet ip (ipam p)).
Qed.

Lemma filterNode_spec p subnets fs fm node :
  ∃ evs,
    filterNode subnets (fs, fm) node p
    = (Val ((fs ++ (if spec_accepted p subnets node then [node] else []))%list,
            spec_reject p subnets fm node),
       with_calls (calls p ++ evs) p).
Proof.
  unfold filterNode, spec_reject, spec_accepted, spec_reason, bind, gets.
  destruct (Matches (nodeSelector p) (node_Labels node)); cbn [negb andb].
  2:{ exists []. by rewrite with_calls_same, app_nil_r. }
  destruct (getNodeSubnet_spec p node) as [evs ->].
  exists evs. destruct (spec_subnetOf p node) as [subnet|err]; cbn.
  - case_bool_decide; cbn; [done|]. by rewrite app_nil_r.
  - by rewrite app_nil_r.
Qed.

Lemma filterNodes_spec p subnets nodes : ∀ fs fm evs0,
  ∃ evs,
    filterNodes subnets (fs, fm) nodes (with_calls (calls p ++ evs0) p)
    = (Val ((fs ++ List.filter (spec_accepted p subnets) nodes)%list,
            foldl (spec_reject p subnets) fm nodes),
       with_calls (calls p ++ evs) p).
Proof.
  induction nodes as [|node rest IH]; intros fs fm evs0; cbn [filterNodes].
  { exists evs0. cbn. by rewrite app_nil_r. }
  unfold bind at 1.
  destruct (filterNode_spec (with_calls (calls p ++ evs0) p) subnets fs fm node)
    as [evs1 ->].
  rewrite with_calls_app.
  change (spec_accepted (with_calls (calls p ++ evs0) p) subnets node)
    with (spec_accepted p subnets node).
  change (spec_reject (with_calls (calls p ++ evs0) p) subnets fm node)
    with (spec_reject p subnets fm node).
  destruct (IH (fs ++ (if spec_accepted p subnets node then [node] else []))%list
               (spec_reject p subnets fm node) (evs0 ++ evs1)%list) as [evs ->].
  exists evs. cbn [List.filter foldl]. rewrite <- app_assoc.
  by destruct (spec_accepted p subnets node).
Qed.

Lemma spec_failedNodes_snoc p subnets nodes node :
  spec_failedNodes p subnets (nodes ++ [node])
  = spec_reject p subnets (spec_failedNodes p subnets nodes) node.
Proof. unfold spec_failedNodes. by rewrite foldl_app. Qed.

(** Whatever is in the map is the reason of a rejected candidate. *)
Lemma spec_failedNodes_sound p subnets nodes name reason :
  spec_failedNodes p subnets nodes !! name = Some reason →
  ∃ node, node ∈ nodes ∧ node_Name node = name
          ∧ spec_accepted p subnets node = false
          ∧ reason = spec_reason p node.
Proof.
  induction nodes as [|node nodes IH] using rev_ind.
  { unfold spec_failedNodes; cbn. by rewrite lookup_empty. }
  rewrite spec_failedNodes_snoc. unfold spec_reject.
  destruct (spec_accepted p subnets node) eqn:Hacc.
  - intros (n & Hin & Hn)%IH. exists n. split; [|done].
    apply elem_of_app; by left.
  - destruct (decide (node_Name node = name)) as [<-|Hne].
    + rewrite lookup_insert_eq. intros [= <-]. exists node.
      split; [|done]. apply elem_of_app; right. by apply list_elem_of_singleton.
    + rewrite lookup_insert_ne by done.
      intros (n & Hin & Hn)%IH. exists n. split; [|done].
      apply elem_of_app; by left.
Qed.

(** Every rejected candidate has its name in the map. *)
Lemma spec_failedNodes_complete p subnets nodes node :
  node ∈ nodes → spec_accepted p subnets node = false →
  is_Some (spec_failedNodes p subnets nodes !! node_Name node).
Proof.
  induction nodes as [|n nodes IH] using rev_ind.
  { by intros ?%elem_of_nil. }
  rewrite spec_failedNodes_snoc. unfold spec_reject.
  intros [Hin | ->%list_elem_of_singleton]%elem_of_app Hrej.
  - destruct (spec_accepted p subnets n); [by apply IH|].
    destruct (decide (node_Name n = node_Name node)) as [->|Hne].
    + rewrite lookup_insert_eq. by eexists.
    + rewrite lookup_insert_ne by done. by apply IH.
  - rewrite Hrej, lookup_insert_eq. by eexists.
Qed.

(** With distinct names each rejected candidate finds its own reason. *)
Lemma spec_failedNodes_own p subnets nodes node :
  NoDup (map node_Name nodes) →
  node ∈ nodes → spec_accepted p subnets node = false →
  spec_failedNodes p subnets nodes !! node_Name node = Some (spec_reason p node).
Proof.
  induction nodes as [|n nodes IH] using rev_ind.
  { by intros _ ?%elem_of_nil. }
  rewrite map_app. intros (Hnd & Hfresh & _)%NoDup_app.
  rewrite spec_failedNodes_snoc. unfold spec_reject.
  intros [Hin | ->%list_elem_of_singleton]%elem_of_app Hrej.
  - assert (node_Name n ≠ node_Name node) as Hne.
    { intros Heq. apply (Hfresh (node_Name node)).
      - apply list_elem_of_fmap. by exists node.
      - rewrite <- Heq. cbn. apply list_elem_of_singleton. done. }
    destruct (spec_accepted p subnets n); [by apply IH|].
    rewrite lookup_insert_ne by done. by apply IH.
  - by rewrite Hrej, lookup_insert_eq.
Qed.

(** The reason of a rejection is one of the plugin's four messages. *)
Lemma spec_reason_cases p node :
  spec_reason p node = "FloatingIPPlugin:UnlabelNode"
  ∨ spec_reason p node = "FloatingIPPlugin:UnknowNode"
  ∨ spec_reason p node = "FloatingIPPlugin:NoFIPConfigNode"
  ∨ spec_reason p node = "FloatingIPPlugin:NoFIPLeft".
Proof.
  unfold spec_reason, spec_subnetOf.
  destruct (Matches _ _); [|by left].
  destruct (nodeSubnet p !! node_Name node); [by do 3 right|].
  destruct (getNodeIP node); [|by right; left].
  destruct (RoutableSubnet _ _); [by do 3 right|by right; right; left].
Qed.

Lemma Filter_spec p pod nodes subnets :
  selectorsSet p →
  Matches (objectSelector p) (pod_Labels pod) = true →
  spec_subnetsForKey p (keyInDB pod) = Ok subnets →
  ∃ evs,
    Filter pod nodes p
    = (Val (List.filter (spec_accepted p subnets) nodes,
            spec_failedNodes p subnets nodes, None),
       with_calls (calls p ++ evs) p).
Proof.
  intros Hsel Hm Hq. unfold Filter, bind.
  rewrite (wantedObject_true p _ Hsel Hm); cbn.
  unfold spec_subnetsForKey in Hq. unfold ipam_QueryRoutableSubnetByKey at 1.
  destruct (QueryRoutableSubnetByKey (keyInDB pod) (ipam p)) as [owned|err];
    [|done].
  destruct owned as [|s owned]; cbn.
  - destruct (QueryRoutableSubnetByKey "" (ipam p)) as [free|err] eqn:Hfree;
      [|done].
    injection Hq as <-. rewrite !log_with_calls, with_calls_app.
    destruct (filterNodes_spec p (list_to_set free) nodes [] ∅
                ([EvQueryRoutableSubnetByKey (keyInDB pod)]
                 ++ [EvQueryRoutableSubnetByKey ""])) as [evs ->].
    by exists evs.
  - injection Hq as <-. rewrite log_with_calls.
    destruct (filterNodes_spec p ({[s]} ∪ list_to_set owned) nodes [] ∅
                [EvQueryRoutableSubnetByKey (keyInDB pod)]) as [evs ->].
    by exists evs.
Qed.

(** C1.  For a pod matching the object selector, [Filter] accepts
    exactly the candidates that match the node selector and whose subnet
    is in the queried set (the subnets owning an IP for the pod's key,
    or, when there are none, the subnets with a free IP), in candidate
    order.  Every other candidate has its name in [failedNodes] with the
    reason of a rejected candidate of that name, its own when names are
    distinct; the reason is UnlabelNode, the error of the subnet lookup
    or NoFIPLeft; and the map holds nothing else.  The plugin is left as
    it was, the call log apart. *)
Theorem Filter_accepts_exactly p (pod : Pod) (nodes : list Node) (subnets : gset string) :
  selectorsSet p →
  Matches (objectSelector p) (pod_Labels pod) = true →
  spec_subnetsForKey p (keyInDB pod) = Ok subnets →
  ∃ failed evs,
    Filter pod nodes p
    = (Val (List.filter (spec_accepted p subnets) nodes, failed, None),
       with_calls (calls p ++ evs) p)
    ∧ (∀ node, node ∈ nodes → spec_accepted p subnets node = false →
         ∃ node', node' ∈ nodes ∧ node_Name node' = node_Name node
                  ∧ spec_accepted p subnets node' = false
                  ∧ failed !! node_Name node = Some (spec_reason p node'))
    ∧ (NoDup (map node_Name nodes) →
       ∀ node, node ∈ nodes → spec_accepted p subnets node = false →
         failed !! node_Name node = Some (spec_reason p node))
    ∧ (∀ name reason, failed !! name = Some reason →
         (∃ node, node ∈ nodes ∧ node_Name node = name
                  ∧ spec_accepted p subnets node = false)
         ∧ (reason = "FloatingIPPlugin:UnlabelNode"
            ∨ reason = "FloatingIPPlugin:UnknowNode"
            ∨ reason = "FloatingIPPlugin:NoFIPConfigNode"
            ∨ reason = "FloatingIPPlugin:NoFIPLeft")).
Proof.
  intros Hsel Hm Hq.
  destruct (Filter_spec p pod nodes subnets Hsel Hm Hq) as [evs HF].
  exists (spec_failedNodes p subnets nodes), evs. split; [done|].
  split; [|split].
  - intros node Hin Hrej.
    destruct (spec_failedNodes_complete p subnets nodes node Hin Hrej)
      as [reason Hr].
    destruct (spec_failedNodes_sound p subnets nodes _ _ Hr)
      as (node' & Hin' & Hname & Hrej' & ->).
    by exists node'.
  - intros Hnd node Hin Hrej. by apply spec_failedNodes_own.
  - intros name reason Hr.
    destruct (spec_failedNodes_sound p subnets nodes _ _ Hr)
      as (node & Hin & Hname & Hrej & ->).
    split; [by exists node|]. apply spec_reason_cases.
Qed.

(** *** Calls that only log *)

Lemma only_logged_refl Q p : only_logged Q p p.
Proof. repeat split. exists []. by rewrite app_nil_r. Qed.

Lemma only_logged_trans Q p1 p2 p3 :
  only_logged Q p1 p2 → only_logged Q p2 p3 → only_logged Q p1 p3.
Proof.
  intros (Hi & Hn & Hl & Hu & evs & Hc & HQ) (Hi' & Hn' & Hl' & Hu' & evs' & Hc' & HQ').
  repeat split; try congruence.
  exists (evs ++ evs')%list. split; [|by apply Forall_app].
  by rewrite Hc', Hc, app_assoc.
Qed.

Lemma only_logged_weaken (Q Q' : event → Prop) p p' :
  (∀ e, Q e → Q' e) → only_logged Q p p' → only_logged Q' p p'.
Proof.
  intros HQQ (Hi & Hn & Hl & Hu & evs & Hc & HQ). repeat split; try done.
  exists evs. split; [done|]. eapply Forall_impl; eauto.
Qed.

Lemma only_logged_log (Q : event → Prop) p e : Q e → only_logged Q p (log e p).
Proof. intros He. repeat split. exists [e]. split; [done|]. by constructor. Qed.

Lemma only_logged_Client (Q : event → Prop) p k e :
  Q e → only_logged Q p (log e (with_Client k p)).
Proof. intros He. repeat split. exists [e]. split; [done|]. by constructor. Qed.

Lemma WaitFor_only_logged {S} Q (fn : S → M (S * bool * option error)) :
  (∀ s p, only_logged Q p (fn s p).2) →
  ∀ n s p, only_logged Q p (WaitFor n fn s p).2.
Proof.
  intros Hfn. induction n as [|n IH]; intros s p; cbn [WaitFor];
    unfold bind; pose proof (Hfn s p) as H1;
    destruct (fn s p) as [[[[s' [|]] [err|]]| |] p1]; cbn in *; try done.
  eapply only_logged_trans; [exact H1|apply IH].
Qed.

Lemma PollImmediate_only_logged {S} Q (fn : S → M (S * bool * option error)) :
  (∀ s p, only_logged Q p (fn s p).2) →
  ∀ i t s p, only_logged Q p (PollImmediate i t fn s p).2.
Proof.
  intros Hfn i t s p. unfold PollImmediate, Poll, bind.
  pose proof (Hfn s p) as H1.
  destruct (fn s p) as [[[[s' [|]] [err|]]| |] p1]; cbn in *; try done.
  eapply only_logged_trans; [exact H1|by apply WaitFor_only_logged].
Qed.

Lemma patchOnce_only_logged args data s p :
  only_logged is_patch p (patchOnce args data s p).2.
Proof.
  unfold patchOnce, bind, client_Pods_Patch.
  destruct (Pods_Patch _ _ _ _) as [[err|] k]; cbn;
    by apply only_logged_Client.
Qed.

Lemma publish_only_logged args key bnd p :
  only_logged is_patch p (publish args key bnd p).2.
Proof.
  unfold publish, bind.
  pose proof (PollImmediate_only_logged is_patch _
                (patchOnce_only_logged args (patchDataOf bnd))
                (300 * Millisecond)%Z (20 * Second)%Z tt p) as H1.
  destruct (PollImmediate _ _ _ _ _) as [[[u [err|]]| |] p1]; by cbn in *.
Qed.

Lemma subnetOfNode_only_logged node p :
  only_logged is_node_read p (subnetOfNode node p).2.
Proof.
  unfold subnetOfNode, bind, ipam_RoutableSubnet.
  destruct (getNodeIP node) as [ip|]; cbn; [|apply only_logged_refl].
  destruct (RoutableSubnet ip (ipam p)); cbn; by apply only_logged_log.
Qed.

Lemma getNodeSubnet_only_logged node p :
  only_logged is_node_read p (getNodeSubnet node p).2.
Proof.
  unfold getNodeSubnet, bind, gets.
  destruct (nodeSubnet p !! node_Name node); cbn;
    [apply only_logged_refl|apply subnetOfNode_only_logged].
Qed.

Lemma queryNodeSubnet_only_logged nodeName p :
  only_logged is_node_read p (queryNodeSubnet nodeName p).2.
Proof.
  unfold queryNodeSubnet, bind at 1 2, gets, Poll.
  destruct (nodeSubnet p !! nodeName); cbn -[IsServerTimeout];
    [apply only_logged_refl|].
  match goal with
  | |- context [WaitFor ?n ?fn ?s p] =>
      assert (only_logged is_node_read p (WaitFor n fn s p).2) as H1;
      [|destruct (WaitFor n fn s p) as [[[[node|] [err|]]| |] p1];
        cbn [fst snd] in *; try exact H1]
  end.
  - apply WaitFor_only_logged. intros s q.
    unfold bind, client_Nodes_Get.
    destruct (Nodes_Get nodeName (Client q)) as [[n|err] k];
      cbn -[IsServerTimeout].
    + by apply only_logged_Client.
    + destruct (IsServerTimeout (Some err)); cbn; by apply only_logged_Client.
  - eapply only_logged_trans; [exact H1|apply subnetOfNode_only_logged].
Qed.

(** *** allocateIP and Bind *)

Lemma allocateIP_reuse p key nodeName info :
  QueryFirst key (ipam p) = Ok (Some info) →
  allocateIP key nodeName p = (Val (annotationOf info), log (EvQueryFirst key) p).
Proof.
  intros HQ. unfold allocateIP, bind, ipam_QueryFirst, annotationOf.
  rewrite HQ; cbn. by destruct (json_Marshal_IPInfo info).
Qed.

Lemma allocateIP_ok_inv p key nodeName bnd p1 :
  allocateIP key nodeName p = (Val (Ok (Some bnd)), p1) →
  ∃ info, QueryFirst key (ipam p1) = Ok (Some info)
          ∧ annotationOf info = Ok (Some bnd).
Proof.
  unfold allocateIP, bind at 1 2, ipam_QueryFirst at 1, annotationOf.
  destruct (QueryFirst key (ipam p)) as [[info|]|err] eqn:HQ; cbn [fst snd].
  - cbn. destruct (json_Marshal_IPInfo info) as [data|err] eqn:Hm; cbn; [|done].
    intros [= <- <-]. exists info. by rewrite Hm.
  - unfold bind at 1 2.
    destruct (queryNodeSubnet nodeName (log (EvQueryFirst key) p))
      as [[q| |] p2]; [|done..].
    unfold ipam_AllocateInSubnet.
    destruct (AllocateInSubnet key _ (ipam p2)) as [[ip|err] d]; [|done].
    unfold bind, ipam_QueryFirst; cbn.
    destruct (QueryFirst key d) as [[info|]|err] eqn:HQ'; cbn; [|done..].
    destruct (json_Marshal_IPInfo info) as [data|err] eqn:Hm; cbn; [|done].
    intros [= <- <-]. exists info. by rewrite Hm.
  - done.
Qed.

(** When the subnet of the node cannot be resolved, [allocateIP] goes
    on to [AllocateInSubnet] with a nil subnet, and it is the outcome of
    that call that decides the result. *)
Lemma allocateIP_unresolved_still_allocates p key nodeName err p2 :
  QueryFirst key (ipam p) = Ok None →
  queryNodeSubnet nodeName (log (EvQueryFirst key) p) = (Val (Err err), p2) →
  EvAllocateInSubnet key None ∈ calls (allocateIP key nodeName p).2
  ∧ ∀ err' d, AllocateInSubnet key None (ipam p2) = (Err err', d) →
      (allocateIP key nodeName p).1 = Val (Err err').
Proof.
  intros HQ Hq. remember (allocateIP key nodeName p) as X eqn:HX.
  unfold allocateIP, bind at 1 2, ipam_QueryFirst at 1 in HX.
  rewrite HQ in HX; cbn [fst snd] in HX. unfold bind at 1 2 in HX.
  rewrite Hq in HX. unfold ipam_AllocateInSubnet in HX.
  destruct (AllocateInSubnet key None (ipam p2)) as [[ip|e] d] eqn:HA.
  - split; [|done]. unfold bind, ipam_QueryFirst in HX; cbn in HX.
    assert (EvAllocateInSubnet key None
            ∈ (((calls p2 ++ [EvAllocateInSubnet key None])
                ++ [EvQueryFirst key]))%list) as Hin.
    { rewrite !elem_of_app, !list_elem_of_singleton. by left; right. }
    destruct (QueryFirst key d) as [[info|]|e]; cbn in HX; subst X; try done.
    by destruct (json_Marshal_IPInfo info).
  - cbn in HX. subst X. cbn. split.
    + rewrite elem_of_app, list_elem_of_singleton. by right.
    + by intros err' d' [= <- <-].
Qed.

Lemma patchOnce_eq args data u p :
  patchOnce args data u p
  = (let '(e, k) := Pods_Patch (PodNamespace args) (PodName args) data (Client p) in
     (Val (tt, match e with Some _ => false | None => true end, None),
      log (EvPodsPatch (PodNamespace args) (PodName args) data) (with_Client k p))).
Proof.
  unfold patchOnce, bind, client_Pods_Patch.
  by destruct (Pods_Patch _ _ _ _) as [[e|] k].
Qed.

Lemma patches_fail_S n namespace name data (k : K) :
  patches_fail (S n) namespace name data k
  = match Pods_Patch namespace name data k with
    | (Some _, k') => patches_fail n namespace name data k'
    | (None, _) => false
    end.
Proof. reflexivity. Qed.

Lemma WaitFor_patches_fail args data n : ∀ p,
  patches_fail (S n) (PodNamespace args) (PodName args) data (Client p) = true →
  (WaitFor n (patchOnce args data) tt p).1 = Val (tt, Some ErrWaitTimeout).
Proof.
  induction n as [|n IH]; intros p; rewrite patches_fail_S; cbn [WaitFor];
    unfold bind; rewrite patchOnce_eq;
    destruct (Pods_Patch _ _ _ _) as [[e|] k]; try done.
  intros Hf. by apply IH.
Qed.

Lemma publish_patches_fail args key bnd p :
  patches_fail bind_patch_attempts
    (PodNamespace args) (PodName args) (patchDataOf bnd) (Client p) = true →
  (publish args key bnd p).1
  = Val (Some (errorString
      ("failed to update pod " +:+ key +:+ ": " +:+ Error ErrWaitTimeout))).
Proof.
  unfold bind_patch_attempts. rewrite patches_fail_S.
  unfold publish, PollImmediate, Poll, bind.
  rewrite patchOnce_eq.
  destruct (Pods_Patch _ _ _ _) as [[e|] k]; [|done].
  intros Hf.
  pose proof (WaitFor_patches_fail args (patchDataOf bnd) _
                (log (EvPodsPatch (PodNamespace args) (PodName args) (patchDataOf bnd))
                     (with_Client k p)) Hf) as Hw.
  destruct (WaitFor _ _ _ _) as [o p']. cbn in Hw. by subst o.
Qed.

Lemma Bind_after_allocateIP p args bnd pa :
  allocateIP (fmtKey (PodName args) (PodNamespace args)) (BindNode args) p
  = (Val (Ok (Some bnd)), pa) →
  Bind args p = publish args (fmtKey (PodName args) (PodNamespace args)) bnd pa.
Proof. intros Ha. unfold Bind, bind. by rewrite Ha. Qed.

(** C2.  [Bind] is idempotent per owner key.  Whenever [QueryFirst]
    finds a record for the key, [allocateIP] answers with the annotation
    of that record after that one query, without allocating.  So once a
    bind for the key has obtained an IP, a second bind for the same key
    (whatever became of the first one's patch) finds the first one's
    record, publishes the very same annotation, and leaves the store as
    it is: it logs no allocation. *)
Theorem Bind_same_key_reuses_record p (args args' : ExtenderBindingArgs)
    (bnd : gmap string string) pa (r1 : outcome (option error)) p1 :
  let key := fmtKey (PodName args) (PodNamespace args) in
  fmtKey (PodName args') (PodNamespace args') = key →
  allocateIP key (BindNode args) p = (Val (Ok (Some bnd)), pa) →
  Bind args p = (r1, p1) →
  (∀ q nodeName info,
     QueryFirst key (ipam q) = Ok (Some info) →
     allocateIP key nodeName q = (Val (annotationOf info), log (EvQueryFirst key) q))
  ∧ (∃ info, QueryFirst key (ipam p1) = Ok (Some info)
             ∧ annotationOf info = Ok (Some bnd))
  ∧ Bind args' p1 = publish args' key bnd (log (EvQueryFirst key) p1)
  ∧ only_logged (λ e, ¬ allocates e) p1 (Bind args' p1).2.
Proof.
  intros key Hkey Ha HB.
  split; [intros q nodeName info; apply allocateIP_reuse|].
  destruct (allocateIP_ok_inv _ _ _ _ _ Ha) as (info & HQ & Hann).
  rewrite (Bind_after_allocateIP _ _ _ _ Ha) in HB.
  pose proof (publish_only_logged args key bnd pa) as Hpub.
  fold key in HB. rewrite HB in Hpub. cbn in Hpub.
  destruct Hpub as (Hipam & _).
  assert (QueryFirst key (ipam p1) = Ok (Some info)) as HQ1 by by rewrite Hipam.
  split; [by exists info|].
  assert (Bind args' p1 = publish args' key bnd (log (EvQueryFirst key) p1)) as HB'.
  { unfold Bind, bind. rewrite Hkey.
    by rewrite (allocateIP_reuse p1 key (BindNode args') info HQ1), Hann. }
  split; [done|]. rewrite HB'.
  apply (only_logged_trans _ _ (log (EvQueryFirst key) p1)).
  - apply (only_logged_log (λ e, ¬ allocates e)). intros Hal; exact Hal.
  - eapply only_logged_weaken; [|apply publish_only_logged].
    intros e Hp Hal. destruct e; cbn in *; done.
Qed.

(** C4.  When the merge-patch fails at every attempt of the retry
    budget (the immediate one, every 300 ms tick within 20 s and the one
    at the time-out),
    [Bind] returns the time-out error; between the allocation and that
    return only patches were attempted, so nothing was released, the
    store is the one [allocateIP] left and the key still owns the
    record it was bound with. *)
Theorem Bind_patch_failure_keeps_allocation p (args : ExtenderBindingArgs)
    (bnd : gmap string string) pa :
  let key := fmtKey (PodName args) (PodNamespace args) in
  allocateIP key (BindNode args) p = (Val (Ok (Some bnd)), pa) →
  patches_fail bind_patch_attempts
    (PodNamespace args) (PodName args) (patchDataOf bnd) (Client pa) = true →
  ∃ p',
    Bind args p
    = (Val (Some (errorString
         ("failed to update pod " +:+ key +:+ ": " +:+ Error ErrWaitTimeout))), p')
    ∧ ipam p' = ipam pa
    ∧ (∃ evs, calls p' = (calls pa ++ evs)%list
              ∧ Forall is_patch evs ∧ Forall (λ e, ¬ releases e) evs)
    ∧ (∃ info, QueryFirst key (ipam p') = Ok (Some info)
               ∧ annotationOf info = Ok (Some bnd)).
Proof.
  intros key Ha Hf.
  destruct (allocateIP_ok_inv _ _ _ _ _ Ha) as (info & HQ & Hann).
  rewrite (Bind_after_allocateIP _ _ _ _ Ha). fold key.
  pose proof (publish_patches_fail args key bnd pa Hf) as Hr.
  pose proof (publish_only_logged args key bnd pa) as Hpub.
  destruct (publish args key bnd pa) as [r p']. cbn in Hr, Hpub. subst r.
  destruct Hpub as (Hipam & _ & _ & _ & evs & Hc & Hev).
  exists p'. split; [done|]. split; [done|]. split.
  - exists evs. split; [done|]. split; [done|].
    eapply Forall_impl; [exact Hev|].
    intros e Hp Hrel. destruct e; cbn in *; done.
  - exists info. by rewrite Hipam.
Qed.

(** *** The node-subnet cache *)

(** Neither lookup writes the cache. *)
Lemma lookups_leave_cache p node nodeName :
  nodeSubnet (getNodeSubnet node p).2 = nodeSubnet p
  ∧ nodeSubnet (queryNodeSubnet nodeName p).2 = nodeSubnet p.
Proof.
  split.
  - by destruct (getNodeSubnet_only_logged node p) as (_ & ? & _).
  - by destruct (queryNodeSubnet_only_logged nodeName p) as (_ & ? & _).
Qed.

(** *** The pool watcher *)

(** A fetched document that differs from the last one and parses is
    recorded as the last one before [ConfigurePool] runs, and the call
    reports an update whatever [ConfigurePool] answers. *)
Lemma updateConfigMap_new_document p cm k val defs :
  ConfigMaps_Get (ConfigMapNamespace (conf p)) (ConfigMapName (conf p)) (Client p)
  = (Ok cm, k) →
  cm_Data cm !! "floatingips" = Some val →
  val ≠ lastFIPConf p →
  json_Unmarshal_FloatingIPs val = Ok defs →
  updateConfigMap p
  = (Val (true, None),
     log (EvConfigurePool defs)
       (with_ipam (ConfigurePool defs (ipam p)).2
          (with_lastFIPConf val
             (log (EvConfigMapsGet (ConfigMapNamespace (conf p)) (ConfigMapName (conf p)))
                (with_Client k p))))).
Proof.
  intros Hget Hval Hne Hparse.
  unfold updateConfigMap, bind, gets, client_ConfigMaps_Get; cbn.
  rewrite Hget; cbn. rewrite Hval. fields.
  destruct (String.eqb_spec val (lastFIPConf p)) as [|_]; [done|].
  rewrite Hparse. unfold ipam_ConfigurePool, set_lastFIPConf; fields.
  by destruct (ConfigurePool defs (ipam p)).
Qed.

(** A fetched document equal to the last one is skipped: nothing is
    parsed and [ConfigurePool] is not called. *)
Lemma updateConfigMap_same_document p cm k :
  ConfigMaps_Get (ConfigMapNamespace (conf p)) (ConfigMapName (conf p)) (Client p)
  = (Ok cm, k) →
  cm_Data cm !! "floatingips" = Some (lastFIPConf p) →
  updateConfigMap p
  = (Val (false, None),
     log (EvConfigMapsGet (ConfigMapNamespace (conf p)) (ConfigMapName (conf p)))
       (with_Client k p)).
Proof.
  intros Hget Hval.
  unfold updateConfigMap, bind, gets, client_ConfigMaps_Get; cbn.
  rewrite Hget; cbn. rewrite Hval. fields. by rewrite String.eqb_refl.
Qed.

(** Hence a document whose [ConfigurePool] failed is not configured
    again as long as it stays the same. *)
Lemma failed_document_is_skipped p cm k val defs cm' k' :
  ConfigMaps_Get (ConfigMapNamespace (conf p)) (ConfigMapName (conf p)) (Client p)
  = (Ok cm, k) →
  cm_Data cm !! "floatingips" = Some val →
  val ≠ lastFIPConf p →
  json_Unmarshal_FloatingIPs val = Ok defs →
  is_Some (ConfigurePool defs (ipam p)).1 →
  ConfigMaps_Get (ConfigMapNamespace (conf p)) (ConfigMapName (conf p)) k
  = (Ok cm', k') →
  cm_Data cm' !! "floatingips" = Some val →
  ∃ p1, updateConfigMap p = (Val (true, None), p1)
        ∧ updateConfigMap p1
          = (Val (false, None),
             log (EvConfigMapsGet (ConfigMapNamespace (conf p)) (ConfigMapName (conf p)))
               (with_Client k' p1)).
Proof.
  intros Hget Hval Hne Hparse _ Hget' Hval'.
  rewrite (updateConfigMap_new_document p cm k val defs) by done.
  eexists. split; [done|].
  exact (updateConfigMap_same_document
           (log (EvConfigurePool defs)
              (with_ipam (ConfigurePool defs (ipam p)).2
                 (with_lastFIPConf val
                    (log (EvConfigMapsGet (ConfigMapNamespace (conf p))
                            (ConfigMapName (conf p)))
                       (with_Client k p)))))
           cm' k' Hget' Hval').
Qed.

(** The start-up poll is done as soon as a new document parses, with
    or without a configured pool. *)
Lemma bootPoll_done p cm k val defs :
  ConfigMaps_Get (ConfigMapNamespace (conf p)) (ConfigMapName (conf p)) (Client p)
  = (Ok cm, k) →
  cm_Data cm !! "floatingips" = Some val →
  val ≠ lastFIPConf p →
  json_Unmarshal_FloatingIPs val = Ok defs →
  (bootPoll tt p).1 = Val (tt, true, None).
Proof.
  intros. unfold bootPoll, bind.
  by rewrite (updateConfigMap_new_document p cm k val defs).
Qed.

(** *** unbind *)

Lemma tappInstanceKilled_spec status :
  tappInstanceKilled status = bool_decide (ToLower status = "killed").
Proof.
  unfold tappInstanceKilled.
  change (ToLower INSTANCE_KILLED) with "killed".
  destruct (String.eqb_spec (ToLower status) "killed");
    [by rewrite bool_decide_eq_true_2|by rewrite bool_decide_eq_false_2].
Qed.

Lemma find_killedInstance tapp label :
  match List.find (killedInstance label) (map_to_list (tapp_Statuses tapp)) with
  | Some _ => true
  | None => false
  end = spec_killed tapp label.
Proof.
  unfold spec_killed.
  destruct (List.find _ _) as [[i status]|] eqn:Hfind.
  - apply find_some in Hfind as [Hin Hk].
    apply list_elem_of_In, elem_of_map_to_list in Hin.
    unfold killedInstance in Hk; cbn in Hk.
    rewrite negb_orb, !negb_involutive in Hk.
    apply andb_true_iff in Hk as [Hk ->%String.eqb_eq].
    by rewrite Hin, <- tappInstanceKilled_spec.
  - destruct (tapp_Statuses tapp !! label) as [status|] eqn:Hl; [|done].
    apply elem_of_map_to_list, list_elem_of_In in Hl.
    pose proof (find_none _ _ Hfind _ Hl) as Hk.
    unfold killedInstance in Hk; cbn in Hk.
    rewrite negb_orb, !negb_involutive, String.eqb_refl, andb_true_r in Hk.
    by rewrite <- tappInstanceKilled_spec.
Qed.

Lemma releasePodIP_returns key p : ∃ err, (releasePodIP key p).1 = Val err.
Proof.
  unfold releasePodIP, bind, ipam_QueryFirst, ipam_Release.
  destruct (QueryFirst key (ipam p)) as [[info|]|err]; cbn; eauto.
  destruct (Release [key] (ipam p)) as [[err|] d]; cbn; eauto.
Qed.


Lemma invariant_selector p pod :
  selectorsSet p →
  Matches (fipInvariantSeletor p) (pod_Labels pod) = spec_invariant pod.
Proof. intros (_ & _ & ->). apply Matches_singleton. Qed.

Lemma unbind_eq pod p :
  unbind pod p
  = if negb (Matches (fipInvariantSeletor p) (pod_Labels pod))
    then releasePodIP (keyInDB pod) p
    else
      let '(r, k) := GetPodTApps pod (Client p) in
      let p' := log (EvGetPodTApps pod) (with_Client k p) in
      match r with
      | Err _ => releasePodIP (keyInDB pod) p'
      | Ok [] => (Panic "runtime error: index out of range", p')
      | Ok (tapp :: _) =>
          if spec_killed tapp (map_index (pod_Labels pod) TAppInstanceKey)
          then releasePodIP (keyInDB pod) p'
          else (Val None, p')
      end.
Proof.
  unfold unbind, bind, gets, lister_GetPodTApps.
  destruct (negb _); [done|].
  destruct (GetPodTApps pod (Client p)) as [[[|tapp rest]|err] k]; try done.
  rewrite <- find_killedInstance. by destruct (List.find _ _).
Qed.

(** A turn of the loop takes the oldest pod off the queue and runs
    [unbind] on it; the pod goes back on the queue when that failed. *)
Lemma loop_step_unbinds p pod rest :
  unreleased p = pod :: rest →
  loop_step p
  = match unbind pod (with_unreleased rest p) with
    | (Val (Some _), p') => send_unreleased pod p'
    | (Val None, p') => (Val tt, p')
    | (Panic msg, p') => (Panic msg, p')
    | (Blocked, p') => (Blocked, p')
    end.
Proof.
  intros Hq. unfold loop_step, bind, gets, set_unreleased. rewrite Hq.
  by destruct (unbind pod (with_unreleased rest p)) as [[[err|]| |] p'].
Qed.


(** C9.  A pod with [floatingip=invariant] whose TApp lookup answers
    with an empty list and no error makes [unbind] index an empty
    slice: it panics after the lookup, with the store untouched and
    nothing released, which no run of [releasePodIP] does. *)
Theorem unbind_without_tapp_panics p (pod : Pod) (k : K) :
  selectorsSet p →
  spec_invariant pod = true →
  GetPodTApps pod (Client p) = (Ok [], k) →
  unbind pod p
  = (Panic "runtime error: index out of range",
     log (EvGetPodTApps pod) (with_Client k p))
  ∧ ∀ q, (releasePodIP (keyInDB pod) q).1 ≠ (unbind pod p).1.
Proof.
  intros Hsel Hyes Hget.
  assert (unbind pod p
          = (Panic "runtime error: index out of range",
             log (EvGetPodTApps pod) (with_Client k p))) as Hu.
  { by rewrite unbind_eq, (invariant_selector p pod Hsel), Hyes, Hget. }
  split; [done|]. intros q. rewrite Hu.
  by destruct (releasePodIP_returns (keyInDB pod) q) as [err ->].
Qed.

(** The selectors survive the watcher, so a plugin built by
    [NewFloatingIPPlugin] has them set. *)
Lemma updateConfigMap_selectorsSet p :
  selectorsSet p → selectorsSet (updateConfigMap p).2.
Proof.
  intros Hsel. unfold updateConfigMap, bind, gets, client_ConfigMaps_Get; cbn.
  destruct (ConfigMaps_Get _ _ _) as [[cm|err] k]; cbn; [|done].
  destruct (cm_Data cm !! "floatingips") as [val|]; cbn; [|done].
  destruct (String.eqb _ _); cbn; [done|].
  destruct (json_Unmarshal_FloatingIPs val) as [defs|err]; cbn; [|done].
  unfold ipam_ConfigurePool; cbn.
  by destruct (ConfigurePool defs (ipam p)).
Qed.

Lemma PollInfinite_bootPoll_selectorsSet fuel interval : ∀ p,
  selectorsSet p → selectorsSet (PollInfinite fuel interval bootPoll tt p).2.
Proof.
  induction fuel as [|fuel IH]; intros p Hsel; cbn [PollInfinite]; [done|].
  unfold bind at 1, bootPoll at 1, bind at 1.
  pose proof (updateConfigMap_selectorsSet p Hsel) as Hu.
  destruct (updateConfigMap p) as [[[[|] err]| |] p1]; cbn in *; try done.
  by apply IH.
Qed.

Lemma NewFloatingIPPlugin_selectorsSet fuel c (args : K) p :
  NewFloatingIPPlugin fuel c args = Val (Ok p) → selectorsSet p.
Proof.
  unfold NewFloatingIPPlugin.
  destruct (openIPAM _) as [d|err]; [|done].
  match goal with |- context [startPlugin fuel ?p0] => set (q := p0) end.
  assert (selectorsSet (startPlugin fuel q).2) as Hsel.
  { unfold startPlugin, bind at 1 2 3, gets.
    set (q1 := (initSelector q).2).
    assert (selectorsSet q1) as H1 by apply initSelector_selectorsSet.
    change (initSelector q) with (Val (@None error), q1). cbn [fst snd].
    destruct (Nat.ltb _ _).
    - unfold ipam_ConfigurePool.
      destruct (ConfigurePool _ _) as [[err|] d']; cbn; done.
    - unfold bind at 1.
      pose proof (PollInfinite_bootPoll_selectorsSet fuel (100 * Millisecond) q1 H1)
        as H2.
      destruct (PollInfinite _ _ _ _ _) as [[[u [err|]]| |] p2]; cbn in *; done. }
  destruct (startPlugin fuel q) as [[[err|]| |] p']; try done.
  by intros [= <-].
Qed.

(** While the configmap cannot be fetched the start-up poll is not
    done, and nothing but the fetch is attempted. *)
Lemma bootPoll_fetch_error p err k :
  ConfigMaps_Get (ConfigMapNamespace (conf p)) (ConfigMapName (conf p)) (Client p)
  = (Err err, k) →
  bootPoll tt p
  = (Val (tt, false, None),
     log (EvConfigMapsGet (ConfigMapNamespace (conf p)) (ConfigMapName (conf p)))
       (with_Client k p)).
Proof.
  intros Hget. unfold bootPoll, updateConfigMap, bind, gets, client_ConfigMaps_Get.
  cbn. by rewrite Hget.
Qed.

End Properties.

(** ** The properties at the example inputs *)

Lemma Filter_accepts_exactly_witness :
  selectorsSet ex_plugin
  ∧ Matches (objectSelector ex_plugin) (pod_Labels ex_pod) = true
  ∧ spec_subnetsForKey ex_plugin (keyInDB ex_pod) = Ok {["10.0.0.0/29"]}
  ∧ ∃ failed evs,
      Filter ex_pod ex_nodes ex_plugin
      = (Val (List.filter (spec_accepted ex_plugin {["10.0.0.0/29"]}) ex_nodes,
              failed, None),
         with_calls (calls ex_plugin ++ evs) ex_plugin)
      ∧ (NoDup (map node_Name ex_nodes) →
         ∀ node, node ∈ ex_nodes →
           spec_accepted ex_plugin {["10.0.0.0/29"]} node = false →
           failed !! node_Name node = Some (spec_reason ex_plugin node)).
Proof.
  assert (selectorsSet ex_plugin) as H1 by (repeat split).
  assert (Matches (objectSelector ex_plugin) (pod_Labels ex_pod) = true) as H2
    by (vm_compute; reflexivity).
  assert (spec_subnetsForKey ex_plugin (keyInDB ex_pod) = Ok {["10.0.0.0/29"]}) as H3
    by (vm_compute; reflexivity).
  split; [exact H1|]. split; [exact H2|]. split; [exact H3|].
  destruct (Filter_accepts_exactly ex_plugin ex_pod ex_nodes _ H1 H2 H3)
    as (failed & evs & HF & _ & Hown & _).
  exists failed, evs. split; [exact HF|exact Hown].
Defined.

Lemma unlabelled_pod_passes_through_witness :
  selectorsSet ex_plugin
  ∧ (pod_Labels ex_pod_unlabelled = None ∨ pod_Labels ex_pod_unlabelled = Some ∅)
  ∧ Filter ex_pod_unlabelled ex_nodes ex_plugin = (Val (ex_nodes, ∅, None), ex_plugin)
  ∧ UpdatePod ex_pod ex_pod_unlabelled ex_plugin = (Val None, ex_plugin)
  ∧ RemovePod ex_pod_unlabelled ex_plugin = (Val None, ex_plugin).
Proof.
  assert (selectorsSet ex_plugin) as H1 by (repeat split).
  split; [exact H1|]. split; [by left|].
  apply (unlabelled_pod_passes_through ex_plugin ex_pod ex_pod_unlabelled ex_nodes H1).
  by left.
Defined.

Lemma Bind_same_key_reuses_record_witness :
  fmtKey (PodName (ex_bind "n4")) (PodNamespace (ex_bind "n4"))
  = fmtKey (PodName (ex_bind "n1")) (PodNamespace (ex_bind "n1"))
  ∧ allocateIP "ns_p1" "n1" ex_plugin
    = (Val (Ok (Some ex_annotation)), (allocateIP "ns_p1" "n1" ex_plugin).2)
  ∧ Bind (ex_bind "n4") (Bind (ex_bind "n1") ex_plugin).2
    = publish (ex_bind "n4") "ns_p1" ex_annotation
        (log (EvQueryFirst "ns_p1") (Bind (ex_bind "n1") ex_plugin).2)
  ∧ only_logged (λ e, ¬ allocates e) (Bind (ex_bind "n1") ex_plugin).2
      (Bind (ex_bind "n4") (Bind (ex_bind "n1") ex_plugin).2).2.
Proof.
  assert (fmtKey (PodName (ex_bind "n4")) (PodNamespace (ex_bind "n4"))
          = fmtKey (PodName (ex_bind "n1")) (PodNamespace (ex_bind "n1"))) as H1
    by reflexivity.
  assert (allocateIP "ns_p1" "n1" ex_plugin
          = (Val (Ok (Some ex_annotation)), (allocateIP "ns_p1" "n1" ex_plugin).2))
    as H2 by (vm_compute; reflexivity).
  split; [exact H1|]. split; [exact H2|].
  destruct (Bind_same_key_reuses_record ex_plugin (ex_bind "n1") (ex_bind "n4")
              ex_annotation _ (Bind (ex_bind "n1") ex_plugin).1
              (Bind (ex_bind "n1") ex_plugin).2 H1 H2)
    as (_ & _ & H3 & H4).
  { apply surjective_pairing. }
  split; [exact H3|exact H4].
Defined.

Lemma Bind_patch_failure_keeps_allocation_witness :
  allocateIP "ns_p1" "n1" ex_plugin_rejecting
  = (Val (Ok (Some ex_annotation)), (allocateIP "ns_p1" "n1" ex_plugin_rejecting).2)
  ∧ patches_fail bind_patch_attempts
      "ns" "p1" (patchDataOf ex_annotation)
      (Client (allocateIP "ns_p1" "n1" ex_plugin_rejecting).2) = true
  ∧ ∃ p',
      Bind (ex_bind "n1") ex_plugin_rejecting
      = (Val (Some (errorString
           "failed to update pod ns_p1: timed out waiting for the condition")), p')
      ∧ QueryFirst "ns_p1" (ipam p')
        = Ok (Some {| info_ip := 167772161; info_subnet := subnet29 |}).
Proof.
  assert (allocateIP "ns_p1" "n1" ex_plugin_rejecting
          = (Val (Ok (Some ex_annotation)),
             (allocateIP "ns_p1" "n1" ex_plugin_rejecting).2))
    as H1 by (vm_compute; reflexivity).
  assert (patches_fail bind_patch_attempts
            "ns" "p1" (patchDataOf ex_annotation)
            (Client (allocateIP "ns_p1" "n1" ex_plugin_rejecting).2) = true)
    as H2 by (vm_compute; reflexivity).
  split; [exact H1|]. split; [exact H2|].
  destruct (Bind_patch_failure_keeps_allocation ex_plugin_rejecting (ex_bind "n1")
              ex_annotation _ H1 H2) as (p' & HB & Hipam & _ & _).
  exists p'. split; [exact HB|].
  rewrite Hipam. vm_compute. reflexivity.
Defined.


Lemma unbind_without_tapp_panics_witness :
  selectorsSet ex_plugin
  ∧ spec_invariant ex_pod_invariant = true
  ∧ GetPodTApps ex_pod_invariant (Client ex_plugin) = (Ok [], ex_cluster)
  ∧ unbind ex_pod_invariant ex_plugin
    = (Panic "runtime error: index out of range",
       log (EvGetPodTApps ex_pod_invariant) (with_Client ex_cluster ex_plugin)).
Proof.
  assert (selectorsSet ex_plugin) as H1 by (repeat split).
  assert (spec_invariant ex_pod_invariant = true) as H2 by (vm_compute; reflexivity).
  assert (GetPodTApps ex_pod_invariant (Client ex_plugin) = (Ok [], ex_cluster)) as H3
    by reflexivity.
  split; [exact H1|]. split; [exact H2|]. split; [exact H3|].
  exact (proj1 (unbind_without_tapp_panics ex_plugin ex_pod_invariant ex_cluster
                  H1 H2 H3)).
Defined.

(** C3.  Binding [ns_p1], which owns no IP, to [n2], a node without an
    internal address: the subnet lookup fails with UnknowNode, yet
    [AllocateInSubnet] is called, with a nil subnet, and [Bind] fails
    with that call's error instead of the lookup's.  The same happens
    for [n4], whose address lies in no pool (NoFIPConfigNode). *)
Theorem Bind_unresolved_node_allocates_anyway :
  QueryFirst "ns_p1" (ipam ex_plugin) = Ok None
  ∧ (queryNodeSubnet "n2" (log (EvQueryFirst "ns_p1") ex_plugin)).1
    = Val (Err ErrUnknowNode)
  ∧ (Bind (ex_bind "n2") ex_plugin).1 = Val (Some ErrNoEnoughIP)
  ∧ calls (Bind (ex_bind "n2") ex_plugin).2
    = (calls ex_plugin
       ++ [EvQueryFirst "ns_p1"; EvNodesGet "n2"; EvAllocateInSubnet "ns_p1" None])%list
  ∧ (queryNodeSubnet "n4" (log (EvQueryFirst "ns_p1") ex_plugin)).1
    = Val (Err ErrNoFIPConfigNode)
  ∧ (Bind (ex_bind "n4") ex_plugin).1 = Val (Some ErrNoEnoughIP)
  ∧ calls (Bind (ex_bind "n4") ex_plugin).2
    = (calls ex_plugin
       ++ [EvQueryFirst "ns_p1"; EvNodesGet "n4"; EvRoutableSubnet 167772421%N;
           EvAllocateInSubnet "ns_p1" None])%list.
Proof. repeat split; vm_compute; reflexivity. Qed.

(** C5.  The cache has no entry for [n1].  The bind-time lookup of
    [n1] succeeds, and so does the filter-time one, but the cache has no
    entry for [n1] afterwards either; a second lookup fetches the node
    from the orchestrator again. *)
Theorem lookup_leaves_cache_empty :
  nodeSubnet ex_plugin !! "n1" = None
  ∧ (queryNodeSubnet "n1" ex_plugin).1 = Val (Ok subnet29)
  ∧ nodeSubnet (queryNodeSubnet "n1" ex_plugin).2 !! "n1" = None
  ∧ calls (queryNodeSubnet "n1" (queryNodeSubnet "n1" ex_plugin).2).2
    = (calls ex_plugin
       ++ [EvNodesGet "n1"; EvRoutableSubnet 167772166%N;
           EvNodesGet "n1"; EvRoutableSubnet 167772166%N])%list
  ∧ (getNodeSubnet node_n1 ex_plugin).1 = Val (Ok subnet29)
  ∧ nodeSubnet (getNodeSubnet node_n1 ex_plugin).2 !! "n1" = None.
Proof. repeat split; vm_compute; reflexivity. Qed.

(** C6.  The watcher fetches a document that differs from the last one
    and whose ranges overlap: [ConfigurePool] is called and fails, the
    pool stays empty, and the call still reports an update.  The next
    poll sees the same document and only fetches: [ConfigurePool] is
    not called again. *)
Theorem failed_pool_configuration_is_not_retried :
  (ConfigurePool pool_overlapping (ipam ex_plugin_watching)).1 = Some ErrConfig
  ∧ (updateConfigMap ex_plugin_watching).1 = Val (true, None)
  ∧ calls (updateConfigMap ex_plugin_watching).2
    = [EvConfigMapsGet "kube-system" "floatingip-config";
       EvConfigurePool pool_overlapping]
  ∧ st_pool (ipam (updateConfigMap ex_plugin_watching).2) = []
  ∧ (updateConfigMap (updateConfigMap ex_plugin_watching).2).1 = Val (false, None)
  ∧ calls (updateConfigMap (updateConfigMap ex_plugin_watching).2).2
    = [EvConfigMapsGet "kube-system" "floatingip-config";
       EvConfigurePool pool_overlapping;
       EvConfigMapsGet "kube-system" "floatingip-config"].
Proof. repeat split; vm_compute; reflexivity. Qed.

(** C8.  Without inline pool definitions and with a configmap that is
    first unreachable and then holds overlapping ranges, construction
    is still polling after one tick, and returns a plugin after the
    second: the document was fetched and parsed, [ConfigurePool] failed
    on it, and the plugin starts with no pool at all.  Given inline, the
    same ranges make construction fail. *)
Theorem startup_completes_without_pool :
  NewFloatingIPPlugin 1 ex_conf_configmap ex_cluster_overlapping = Blocked
  ∧ NewFloatingIPPlugin 2 ex_conf_configmap ex_cluster_overlapping
    = Val (Ok (started 2 ex_conf_configmap ex_cluster_overlapping))
  ∧ ipam (started 2 ex_conf_configmap ex_cluster_overlapping)
    = {| st_pool := []; st_rows := [] |}
  ∧ calls (started 2 ex_conf_configmap ex_cluster_overlapping)
    = [EvConfigMapsGet "kube-system" "floatingip-config";
       EvConfigMapsGet "kube-system" "floatingip-config";
       EvConfigurePool pool_overlapping;
       EvGo "updateConfigMap"; EvGo "resyncPod"; EvGo "loop"]
  ∧ (ConfigurePool pool_overlapping {| st_pool := []; st_rows := [] |}).1
    = Some ErrConfig
  ∧ NewFloatingIPPlugin 0
      {| FloatingIPs := pool_overlapping; conf_DBConfig := None; ResyncInterval := 0;
         ConfigMapName := ""; ConfigMapNamespace := "" |} ex_cluster
    = Val (Err ErrConfig).
Proof. repeat split; vm_compute; reflexivity. Qed.

(** ** More about the plugin *)

Section MoreProperties.
Context `{L : Lib} {db K : Type} `{!IPAM db} `{!Orchestrator K}.

Implicit Types p q : FloatingIPPlugin db K.

Ltac struct_fields :=
  cbn [ipam nodeSubnet Client lastFIPConf conf unreleased calls
       objectSelector nodeSelector fipInvariantSeletor
       log with_calls with_Client with_ipam with_lastFIPConf with_unreleased
       fst snd] in *.

Lemma reads_only_refl Q p : reads_only Q p p.
Proof. exists []. split; [by rewrite with_calls_same|done]. Qed.

Lemma reads_only_trans Q p1 p2 p3 :
  reads_only Q p1 p2 → reads_only Q p2 p3 → reads_only Q p1 p3.
Proof.
  intros (evs & -> & HQ) (evs' & -> & HQ').
  exists (evs ++ evs')%list. split; [apply with_calls_app|by apply Forall_app].
Qed.

Lemma reads_only_log (Q : event → Prop) p e : Q e → reads_only Q p (log e p).
Proof. intros He. exists [e]. split; [done|by constructor]. Qed.

Lemma reads_only_weaken (Q Q' : event → Prop) p p' :
  (∀ e, Q e → Q' e) → reads_only Q p p' → reads_only Q' p p'.
Proof.
  intros HQQ (evs & -> & HQ). exists evs. split; [done|].
  eapply Forall_impl; eauto.
Qed.

(** What is kept when only the log grows. *)
Lemma reads_only_fields Q p p' :
  reads_only Q p p' →
  ipam p' = ipam p ∧ nodeSubnet p' = nodeSubnet p ∧ Client p' = Client p
  ∧ lastFIPConf p' = lastFIPConf p ∧ unreleased p' = unreleased p
  ∧ conf p' = conf p.
Proof. by intros (evs & -> & _). Qed.

(** *** Filter only reads *)

Lemma getNodeSubnet_reads_only node p :
  ∃ r p', getNodeSubnet node p = (Val r, p') ∧ reads_only is_subnet_query p p'.
Proof.
  unfold getNodeSubnet, subnetOfNode, bind, gets.
  destruct (nodeSubnet p !! node_Name node) as [subnet|]; cbn.
  { eexists _, _. split; [done|apply reads_only_refl]. }
  destruct (getNodeIP node) as [ip|]; cbn.
  2:{ eexists _, _. split; [done|apply reads_only_refl]. }
  unfold ipam_RoutableSubnet.
  destruct (RoutableSubnet ip (ipam p)); cbn;
    (eexists _, _; split; [done|by apply reads_only_log]).
Qed.

Lemma filterNode_reads_only subnets acc node p :
  ∃ acc' p', filterNode subnets acc node p = (Val acc', p')
             ∧ reads_only is_subnet_query p p'.
Proof.
  destruct acc as [fs fm]. unfold filterNode, bind, gets.
  destruct (negb _); cbn [fst snd].
  { eexists _, _. split; [done|apply reads_only_refl]. }
  destruct (getNodeSubnet_reads_only node p) as (r & p1 & -> & Hp).
  destruct r as [subnet|err]; [destruct (bool_decide _)|]; cbn;
    (eexists _, _; split; [done|exact Hp]).
Qed.

Lemma filterNodes_reads_only subnets nodes : ∀ acc p,
  ∃ acc' p', filterNodes subnets acc nodes p = (Val acc', p')
             ∧ reads_only is_subnet_query p p'.
Proof.
  induction nodes as [|node rest IH]; intros acc p; cbn [filterNodes].
  { eexists _, _. split; [done|apply reads_only_refl]. }
  unfold bind.
  destruct (filterNode_reads_only subnets acc node p) as (acc1 & p1 & -> & Hp).
  destruct (IH acc1 p1) as (acc' & p' & -> & Hp').
  exists acc', p'. split; [done|]. by eapply reads_only_trans.
Qed.

Lemma wantedObject_returns ls p : ∃ w, wantedObject ls p = (Val w, p).
Proof.
  unfold wantedObject, bind, gets.
  destruct ls; [destruct (negb _)|]; by eexists.
Qed.

(** X1.  [Filter] only reads.  For every pod and every candidate list
    it returns (it neither panics nor blocks), and the plugin it leaves
    is the one it found, the log apart: the store, the node-subnet
    cache, the orchestrator, the last pool document and the queue are
    untouched, and the log grew by subnet queries only, so nothing was
    allocated or released. *)
Theorem Filter_only_reads p (pod : Pod) (nodes : list Node) :
  ∃ r p', Filter pod nodes p = (Val r, p')
          ∧ reads_only is_subnet_query p p'.
Proof.
  unfold Filter, bind at 1.
  destruct (wantedObject_returns (pod_Labels pod) p) as [w ->].
  destruct w; cbn [negb].
  2:{ eexists _, _. split; [done|apply reads_only_refl]. }
  unfold bind at 1, ipam_QueryRoutableSubnetByKey at 1.
  pose proof (reads_only_log is_subnet_query p
                (EvQueryRoutableSubnetByKey (keyInDB pod)) I) as H1.
  destruct (QueryRoutableSubnetByKey (keyInDB pod) (ipam p)) as [owned|err].
  2:{ eexists _, _. split; [done|exact H1]. }
  set (p1 := log (EvQueryRoutableSubnetByKey (keyInDB pod)) p) in *.
  unfold bind at 1.
  assert (∃ r' p2,
            (if negb (Nat.eqb (length owned) 0) then ret (Ok owned)
             else ipam_QueryRoutableSubnetByKey "") p1 = (Val r', p2)
            ∧ reads_only is_subnet_query p p2) as (r' & p2 & -> & H2).
  { destruct (negb _).
    - by exists (Ok owned), p1.
    - eexists _, _. split; [done|].
      eapply reads_only_trans; [exact H1|]. by apply reads_only_log. }
  destruct r' as [subnets|err].
  2:{ eexists _, _. split; [done|exact H2]. }
  unfold bind.
  destruct (filterNodes_reads_only (list_to_set subnets) nodes ([], ∅) p2)
    as (acc & p3 & -> & Hp).
  eexists _, _. split; [done|]. by eapply reads_only_trans.
Qed.

(** X2.  When a subnet query of [Filter] fails (the one for the pod's
    key, or the one for the free subnets made when the key owns
    nothing), [Filter] returns no node, an empty [failedNodes] map and
    an error carrying the IPAM's message; no candidate is looked at:
    the log grew by the key queries only. *)
Theorem Filter_query_error p (pod : Pod) (nodes : list Node) (err : error) :
  selectorsSet p →
  Matches (objectSelector p) (pod_Labels pod) = true →
  spec_subnetsForKey p (keyInDB pod) = Err err →
  ∃ msg p',
    Filter pod nodes p = (Val ([], ∅, Some (errorString msg)), p')
    ∧ reads_only is_key_query p p'
    ∧ (msg = "failed to query by key " +:+ keyInDB pod +:+ ": " +:+ Error err
       ∨ msg = "failed to query allocatable subnet: " +:+ Error err).
Proof.
  intros Hsel Hm Hq. unfold Filter, bind at 1.
  rewrite (wantedObject_true p _ Hsel Hm); cbn [negb].
  unfold spec_subnetsForKey in Hq.
  unfold bind at 1, ipam_QueryRoutableSubnetByKey at 1.
  pose proof (reads_only_log is_key_query p
                (EvQueryRoutableSubnetByKey (keyInDB pod)) I) as H1.
  destruct (QueryRoutableSubnetByKey (keyInDB pod) (ipam p)) as [owned|e].
  2:{ injection Hq as ->. eexists _, _. split; [done|]. split; [exact H1|by left]. }
  destruct owned as [|s owned]; [|done].
  unfold bind, ipam_QueryRoutableSubnetByKey; cbn.
  destruct (QueryRoutableSubnetByKey "" (ipam p)) as [free|e]; [done|].
  injection Hq as ->. eexists _, _. split; [done|]. split; [|by right].
  eapply reads_only_trans; [exact H1|]. by apply reads_only_log.
Qed.

(** *** Bind *)

(** X3.  An allocation that fails is reported as it is.  When the key
    owns nothing and [AllocateInSubnet] answers with an error, [Bind]
    returns that very error value, not a wrapped one, right after the
    call: the key is not queried again and the pod is not patched. *)
Theorem Bind_allocation_error_verbatim p (args : ExtenderBindingArgs)
    (q : result IPNet) p2 (err : error) (d : db) :
  let key := fmtKey (PodName args) (PodNamespace args) in
  let subnet := match q with Ok s => Some s | Err _ => None end in
  QueryFirst key (ipam p) = Ok None →
  queryNodeSubnet (BindNode args) (log (EvQueryFirst key) p) = (Val q, p2) →
  AllocateInSubnet key subnet (ipam p2) = (Err err, d) →
  Bind args p
  = (Val (Some err), log (EvAllocateInSubnet key subnet) (with_ipam d p2)).
Proof.
  intros key subnet HQ Hq HA.
  unfold Bind, bind at 1, allocateIP, bind at 1, ipam_QueryFirst at 1.
  fold key. rewrite HQ. cbn [fst snd]. unfold bind at 1 2. rewrite Hq.
  unfold bind at 1, ipam_AllocateInSubnet. fold subnet. by rewrite HA.
Qed.

(** X4.  An allocation that leaves no record is an error, and is not
    undone.  When [AllocateInSubnet] succeeds but the query that follows
    finds nothing for the key, [Bind] fails with the nil-floating-ip
    message, the pod is not patched, nothing is released and the store
    stays as the allocation left it. *)
Theorem Bind_allocation_without_record p (args : ExtenderBindingArgs)
    (q : result IPNet) p2 (ip : IP) (d : db) :
  let key := fmtKey (PodName args) (PodNamespace args) in
  let subnet := match q with Ok s => Some s | Err _ => None end in
  QueryFirst key (ipam p) = Ok None →
  queryNodeSubnet (BindNode args) (log (EvQueryFirst key) p) = (Val q, p2) →
  AllocateInSubnet key subnet (ipam p2) = (Ok ip, d) →
  QueryFirst key d = Ok None →
  Bind args p
  = (Val (Some (errorString ("nil floating ip for key " +:+ key +:+ ": <nil>"))),
     log (EvQueryFirst key)
       (log (EvAllocateInSubnet key subnet) (with_ipam d p2))).
Proof.
  intros key subnet HQ Hq HA HQ'.
  unfold Bind, bind at 1, allocateIP, bind at 1, ipam_QueryFirst at 1.
  fold key. rewrite HQ. cbn [fst snd]. unfold bind at 1 2. rewrite Hq.
  unfold bind at 1, ipam_AllocateInSubnet. fold subnet. rewrite HA.
  unfold bind, ipam_QueryFirst. struct_fields. by rewrite HQ'.
Qed.

Lemma WaitFor_patch_succeeds (args : ExtenderBindingArgs) (data : string)
    (j : nat) : ∀ (n : nat) p,
  (j ≤ n)%nat →
  patch_succeeds_after j (PodNamespace args) (PodName args) data (Client p) = true →
  ∃ p',
    WaitFor n (patchOnce args data) tt p = (Val (tt, None), p')
    ∧ calls p'
      = (calls p
         ++ replicate (S j) (EvPodsPatch (PodNamespace args) (PodName args) data))%list
    ∧ Client p' = after_patches (S j) (PodNamespace args) (PodName args) data (Client p).
Proof.
  induction j as [|j IH]; intros n p Hle Hs.
  - cbn in Hs. cbn [after_patches].
    destruct n; cbn [WaitFor]; unfold bind; rewrite patchOnce_eq;
      destruct (Pods_Patch _ _ _ _) as [[e|] k]; try done;
      by eexists.
  - destruct n as [|n]; [lia|]. cbn [patch_succeeds_after] in Hs.
    cbn [WaitFor]. unfold bind. rewrite patchOnce_eq.
    change (after_patches (S (S j)) (PodNamespace args) (PodName args) data (Client p))
      with (after_patches (S j) (PodNamespace args) (PodName args) data
              (Pods_Patch (PodNamespace args) (PodName args) data (Client p)).2).
    destruct (Pods_Patch _ _ _ _) as [[e|] k]; [|done].
    destruct (IH n (log (EvPodsPatch (PodNamespace args) (PodName args) data)
                      (with_Client k p))) as (p' & -> & Hc & Hk); [lia|done|].
    exists p'. split; [done|]. split; [|done].
    rewrite Hc. cbn. by rewrite <- app_assoc.
Qed.

(** X5.  The patch is retried until it goes through.  If [allocateIP]
    produced an annotation and the patch fails [j] times and then
    succeeds, with [j] within the attempts [Bind] makes, [Bind] returns
    nil after exactly [j + 1] patches, all carrying the same data, and
    touches nothing but the orchestrator. *)
Theorem Bind_patch_retried p (args : ExtenderBindingArgs)
    (bnd : gmap string string) pa (j : nat) :
  let key := fmtKey (PodName args) (PodNamespace args) in
  allocateIP key (BindNode args) p = (Val (Ok (Some bnd)), pa) →
  (j < bind_patch_attempts)%nat →
  patch_succeeds_after j (PodNamespace args) (PodName args) (patchDataOf bnd)
    (Client pa) = true →
  ∃ p',
    Bind args p = (Val None, p')
    ∧ only_logged is_patch pa p'
    ∧ calls p'
      = (calls pa
         ++ replicate (S j)
              (EvPodsPatch (PodNamespace args) (PodName args) (patchDataOf bnd)))%list
    ∧ Client p'
      = after_patches (S j) (PodNamespace args) (PodName args) (patchDataOf bnd)
          (Client pa).
Proof.
  intros key Ha Hj Hs.
  rewrite (Bind_after_allocateIP _ _ _ _ Ha). fold key.
  pose proof (publish_only_logged args key bnd pa) as Hpub.
  assert (∃ p', publish args key bnd pa = (Val None, p')
                ∧ calls p'
                  = (calls pa
                     ++ replicate (S j)
                          (EvPodsPatch (PodNamespace args) (PodName args)
                             (patchDataOf bnd)))%list
                ∧ Client p'
                  = after_patches (S j) (PodNamespace args) (PodName args)
                      (patchDataOf bnd) (Client pa)) as (p' & Hp & Hc & Hk).
  { unfold publish, PollImmediate, Poll, bind at 1 2. rewrite patchOnce_eq.
    destruct j as [|j].
    - cbn in Hs. cbn [after_patches].
      destruct (Pods_Patch _ _ _ _) as [[e|] k]; [done|]. by eexists.
    - cbn [patch_succeeds_after] in Hs.
      change (after_patches (S (S j)) (PodNamespace args) (PodName args)
                (patchDataOf bnd) (Client pa))
        with (after_patches (S j) (PodNamespace args) (PodName args) (patchDataOf bnd)
                (Pods_Patch (PodNamespace args) (PodName args) (patchDataOf bnd)
                   (Client pa)).2).
      destruct (Pods_Patch _ _ _ _) as [[e|] k]; [|done].
      unfold bind_patch_attempts in Hj.
      destruct (WaitFor_patch_succeeds args (patchDataOf bnd) j
                  (poller_ticks (300 * Millisecond) (20 * Second))
                  (log (EvPodsPatch (PodNamespace args) (PodName args) (patchDataOf bnd))
                     (with_Client k pa))) as (p' & Hw & Hc & Hk); [lia|done|].
      unfold bind. rewrite Hw. exists p'. split; [done|]. split; [|done].
      rewrite Hc. cbn. by rewrite <- app_assoc. }
  rewrite Hp in Hpub |- *. by exists p'.
Qed.

End MoreProperties.
